(** * Evallo log store: the ingestion and query handlers of backend/server.js

    A shallow embedding of [validateLogEntry], [readLogs], [writeLogs],
    [initializeDatabase], [startServer] and of the two route handlers
    [app.post('/logs')] and [app.get('/logs')], with the properties of the
    log store and of the query engine proved over it.

    JavaScript objects are finite maps from property names to JSON values,
    the database file is a value of [db_file], and the handlers are written
    in a small state-and-exception monad over the server state. *)

From Stdlib Require Import ZArith Ascii.
From stdpp Require Import gmap strings list fin_maps pretty sorting.

Set Warnings "-register-all".
Local Open Scope Z_scope.

(** ** JSON values and JavaScript objects *)

(** What [express.json()] hands to the handler and what [JSON.parse] reads
    back from the file.  Numbers are the finite integral ones: the handlers
    only test a number for being zero or hand it to [Date].  A literal that
    overflows (1e999, read as an infinite number and written back as
    [null]) is not among these values. *)
Inductive json :=
| JNull
| JBool (b : bool)
| JNum (n : Z)
| JStr (s : string)
| JArr (l : list json)
| JObj (m : gmap string json).

(** An object; [o !! "f"] is the property access [o.f], [None] standing for
    [undefined]. *)
Abbreviation object := (gmap string json).

(** ToBoolean, as used by [!x] and [if (x)]. *)
Definition truthy (v : option json) : bool :=
  match v with
  | None => false
  | Some JNull => false
  | Some (JBool b) => b
  | Some (JNum n) => negb (n =? 0)
  | Some (JStr s) => negb (String.eqb s "")
  | Some (JArr _) => true
  | Some (JObj _) => true
  end.

(** The [typeof] operator. *)
Definition typeof (v : option json) : string :=
  match v with
  | None => "undefined"
  | Some JNull => "object"
  | Some (JBool _) => "boolean"
  | Some (JNum _) => "number"
  | Some (JStr _) => "string"
  | Some (JArr _) => "object"
  | Some (JObj _) => "object"
  end.

(** [v === s] for a string [s]. *)
Definition strict_eq (v : option json) (s : string) : bool :=
  match v with
  | Some (JStr s') => String.eqb s' s
  | _ => false
  end.

(** [arr.includes(v)] for an array of strings. *)
Definition Array_includes (arr : list string) (v : option json) : bool :=
  existsb (strict_eq v) arr.

(** ** The host: [Date] and [String.prototype.toLowerCase]

    [Date_getTime v] is [new Date(v).getTime()], with [None] for [NaN]
    (an invalid date); [toISOString t] is [new Date(t).toISOString()];
    [toLowerCase s] is [s.toLowerCase()].  What [Date] accepts beyond ISO
    8601 and how letters beyond A-Z are lowered is left to the engine, so the
    host is a parameter of the development. *)
Record host := Host {
  Date_getTime : option json → option Z;
  toISOString : Z → string;
  toLowerCase : string → string
}.

(** ** A sample host: ISO 8601 in UTC

    Reads [YYYY-MM-DDTHH:mm:ssZ] and [YYYY-MM-DDTHH:mm:ss.sssZ], prints the
    latter, and lowers the letters A-Z, which is what the engine does on
    text made of ASCII characters.  It is used to run the handlers on
    concrete requests. *)
Module Iso.

Definition digit (c : ascii) : option Z :=
  let n := Z.of_N (Ascii.N_of_ascii c) in
  if (48 <=? n) && (n <=? 57) then Some (n - 48) else None.

Fixpoint digits (k : nat) (acc : Z) (s : string) : option (Z * string) :=
  match k with
  | O => Some (acc, s)
  | S k' =>
      match s with
      | String c s' =>
          match digit c with
          | Some d => digits k' (10 * acc + d) s'
          | None => None
          end
      | EmptyString => None
      end
  end.

Definition expect (c : ascii) (s : string) : option string :=
  match s with
  | String c' s' => if Ascii.eqb c c' then Some s' else None
  | EmptyString => None
  end.

Definition leap (y : Z) : bool :=
  ((y mod 4 =? 0) && negb (y mod 100 =? 0)) || (y mod 400 =? 0).

Definition days_in_month (y m : Z) : Z :=
  if m =? 2 then (if leap y then 29 else 28)
  else if (m =? 4) || (m =? 6) || (m =? 9) || (m =? 11) then 30 else 31.

Definition days_from_civil (y m d : Z) : Z :=
  let y' := if m <=? 2 then y - 1 else y in
  let era := y' / 400 in
  let yoe := y' - era * 400 in
  let doy := (153 * (if 2 <? m then m - 3 else m + 9) + 2) / 5 + d - 1 in
  let doe := yoe * 365 + yoe / 4 - yoe / 100 + doy in
  era * 146097 + doe - 719468.

Definition civil_from_days (z : Z) : Z * Z * Z :=
  let z := z + 719468 in
  let era := z / 146097 in
  let doe := z - era * 146097 in
  let yoe := (doe - doe / 1460 + doe / 36524 - doe / 146096) / 365 in
  let doy := doe - (365 * yoe + yoe / 4 - yoe / 100) in
  let mp := (5 * doy + 2) / 153 in
  let d := doy - (153 * mp + 2) / 5 + 1 in
  let m := if mp <? 10 then mp + 3 else mp - 9 in
  (yoe + era * 400 + (if m <=? 2 then 1 else 0), m, d).

Definition millis (s : string) : option Z :=
  match s with
  | "Z"%string => Some 0
  | _ =>
      match expect "." s with
      | Some s1 =>
          match digits 3 0 s1 with
          | Some (ms, "Z"%string) => Some ms
          | _ => None
          end
      | None => None
      end
  end.

Definition parse (s : string) : option Z :=
  '(y, s) ← digits 4 0 s; s ← expect "-" s;
  '(m, s) ← digits 2 0 s; s ← expect "-" s;
  '(d, s) ← digits 2 0 s; s ← expect "T" s;
  '(hh, s) ← digits 2 0 s; s ← expect ":" s;
  '(mm, s) ← digits 2 0 s; s ← expect ":" s;
  '(ss, s) ← digits 2 0 s;
  ms ← millis s;
  if (1 <=? m) && (m <=? 12) && (1 <=? d) && (d <=? days_in_month y m)
     && (hh <=? 23) && (mm <=? 59) && (ss <=? 59)
  then Some (days_from_civil y m d * 86400000
             + hh * 3600000 + mm * 60000 + ss * 1000 + ms)
  else None.

Definition digit_char (d : Z) : ascii := Ascii.ascii_of_N (Z.to_N (48 + d mod 10)).

Fixpoint pad (k : nat) (n : Z) (rest : string) : string :=
  match k with
  | O => rest
  | S k' => pad k' (n / 10) (String (digit_char n) rest)
  end.

Definition print (t : Z) : string :=
  let days := t / 86400000 in
  let r := t mod 86400000 in
  let '(y, m, d) := civil_from_days days in
  let year :=
    if (0 <=? y) && (y <=? 9999) then pad 4 y ""
    else String (if y <? 0 then "-"%char else "+"%char) (pad 6 (Z.abs y) "") in
  year +:+ "-" +:+ pad 2 m "" +:+ "-" +:+ pad 2 d "" +:+ "T"
    +:+ pad 2 (r / 3600000) "" +:+ ":" +:+ pad 2 (r / 60000 mod 60) ""
    +:+ ":" +:+ pad 2 (r / 1000 mod 60) "" +:+ "." +:+ pad 3 (r mod 1000) "Z".

(** [new Date(v)]: a string is parsed, a number is a time value (within the
    range of [Date]), a boolean or [null] is converted to a number first,
    [undefined] gives an invalid date.  Arrays and objects are converted to
    strings that this sample host does not read. *)
Definition getTime (v : option json) : option Z :=
  match v with
  | Some (JStr s) => parse s
  | Some (JNum n) => if Z.abs n <=? 8640000000000000 then Some n else None
  | Some (JBool b) => Some (if b then 1 else 0)
  | Some JNull => Some 0
  | _ => None
  end.

(** [toLowerCase] on ASCII text: A-Z become a-z, every other character is
    left as it is. *)
Definition lower_char (c : ascii) : ascii :=
  let n := N_of_ascii c in
  if ((65 <=? n) && (n <=? 90))%N then ascii_of_N (n + 32) else c.

Fixpoint lower (s : string) : string :=
  match s with
  | EmptyString => EmptyString
  | String c s' => String (lower_char c) (lower s')
  end.

Definition iso : host := Host getTime print lower.

End Iso.

(** ** Strings: [includes]

    Strings are sequences of 8-bit characters, the UTF-8 form of the text. *)

(** [s.includes(sub)]: [sub] is looked for at every position of [s]. *)
Fixpoint includes (s sub : string) : bool :=
  String.prefix sub s
  || match s with
     | EmptyString => false
     | String _ s' => includes s' sub
     end.

(** ** [validateLogEntry] *)

Inductive validation_error :=
| MissingFields (missing : list string)
| InvalidLevel
| InvalidTimestamp
| InvalidMetadata.

(** [{ valid: true }] or [{ valid: false, error }]; the error message is kept
    as the case it reports. *)
Inductive validation :=
| valid
| invalid (error : validation_error).

Definition required : list string :=
  ["level"; "message"; "resourceId"; "timestamp"; "traceId"; "spanId";
   "commit"; "metadata"]%string.

Definition validLevels : list string := ["error"; "warn"; "info"; "debug"]%string.

Definition validateLogEntry (H : host) (logEntry : object) : validation :=
  let missing := List.filter (λ field, negb (truthy (logEntry !! field))) required in
  if (0 <? length missing)%nat then invalid (MissingFields missing)
  else if negb (Array_includes validLevels (logEntry !! "level")) then
    invalid InvalidLevel
  else if negb (bool_decide (is_Some (Date_getTime H (logEntry !! "timestamp")))) then
    invalid InvalidTimestamp
  else if negb (String.eqb (typeof (logEntry !! "metadata")) "object")
          || match logEntry !! "metadata" with Some JNull => true | _ => false end then
    invalid InvalidMetadata
  else valid.

(** ** The server: database file, connected sockets, and what it has done *)

(** What reading [DB_FILE] and parsing it can give.  A container with a
    [logs] field holds the array that [writeLogs] stored. *)
Inductive db_file :=
| db_missing                    (* fs.readFile rejects: no such file *)
| db_unreadable                 (* fs.readFile rejects for another reason *)
| db_corrupt                    (* JSON.parse throws on the text *)
| db_no_logs                    (* valid JSON whose .logs is undefined *)
| db_logs (logs : list object). (* { "logs": [...] } *)

(** The payload of the [newLog] event. *)
Record event := Event {
  ev_type : string;
  ev_log : object;
  totalLogs : nat
}.

(** The effects of the handlers that leave the process, in the order they
    happen: a completed [fs.writeFile] and an [io.emit] to the sockets
    connected at that moment. *)
Inductive action :=
| Persisted (logs : list object)
| Broadcast (ev : event) (to : list nat).

Record server := Server {
  db : db_file;
  sockets : list nat;
  trace : list action
}.

(** What the environment decides during one request: the two clock readings
    ([Date.now()] and [new Date()]) and whether [fs.writeFile] completes; when
    it does not, the file is left in some state [after]. *)
Inductive write_outcome :=
| write_ok
| write_error (after : db_file).

Record env := Env {
  Date_now : Z;
  new_Date : Z;
  fs_writeFile : write_outcome
}.

(** *** The monad of the handlers: state and exceptions *)

Inductive result (A : Type) :=
| Return (a : A)
| Throw.
Arguments Return {A} a.
Arguments Throw {A}.

Definition io (A : Type) : Type := server → result A * server.

#[export] Instance io_ret : MRet io := λ A a s, (Return a, s).

#[export] Instance io_bind : MBind io := λ A B k m s,
  match m s with
  | (Return a, s') => k a s'
  | (Throw, s') => (Throw, s')
  end.

Definition throw {A} : io A := λ s, (Throw, s).

(** [try { m } catch (error) { h }] *)
Definition try_catch {A} (m h : io A) : io A := λ s,
  match m s with
  | (Return a, s') => (Return a, s')
  | (Throw, s') => h s'
  end.

(** [JSON.parse(await fs.readFile(DB_FILE, 'utf8')).logs] *)
Definition read_parse_logs : io (option (list object)) := λ s,
  match db s with
  | db_missing | db_unreadable | db_corrupt => (Throw, s)
  | db_no_logs => (Return None, s)
  | db_logs logs => (Return (Some logs), s)
  end.

Definition readLogs : io (list object) :=
  try_catch (logs ← read_parse_logs; mret (default [] logs)) (mret []).

Definition writeLogs (e : env) (logs : list object) : io () := λ s,
  match fs_writeFile e with
  | write_ok =>
      (Return (), Server (db_logs logs) (sockets s) (trace s ++ [Persisted logs]))
  | write_error after => (Throw, Server after (sockets s) (trace s))
  end.

Definition io_emit (ev : event) : io () := λ s,
  (Return (), Server (db s) (sockets s) (trace s ++ [Broadcast ev (sockets s)])).

(** [new Date(v).toISOString()], which throws a RangeError on an invalid date. *)
Definition Date_toISOString (H : host) (v : option json) : io string :=
  match Date_getTime H v with
  | Some t => mret (toISOString H t)
  | None => throw
  end.

(** What a handler sends back through [res]. *)
Inductive response :=
| Status200 (logs : list object)         (* res.json(filteredLogs) *)
| Status201 (log : object)               (* res.status(201).json({ message, log }) *)
| Status400 (error : validation_error)   (* res.status(400).json({ error }) *)
| Status500.                             (* res.status(500).json({ error }) *)

(** ** POST /logs *)

(** The retention cap of the handler. *)
Definition cap : nat := 1000.

(** [logs.unshift(newLog); if (logs.length > 1000) logs.splice(1000)] *)
Definition unshift_splice (newLog : object) (logs : list object) : list object :=
  let logs := newLog :: logs in
  if (cap <? length logs)%nat then take cap logs else logs.

(** [{ id: Date.now().toString(), ...logEntry, timestamp, ingestedAt }]:
    the properties of [logEntry] are spread after [id] and before the two
    others. *)
Definition make_newLog (e : env) (H : host) (logEntry : object) (timestamp : string)
  : object :=
  <["ingestedAt" := JStr (toISOString H (new_Date e))]>
    (<["timestamp" := JStr timestamp]>
       (logEntry ∪ {["id" := JStr (pretty (Date_now e))]})).

Definition post_logs (H : host) (e : env) (logEntry : object) : io response :=
  try_catch
    (match validateLogEntry H logEntry with
     | invalid error => mret (Status400 error)
     | valid =>
         logs ← readLogs;
         timestamp ← Date_toISOString H (logEntry !! "timestamp");
         let newLog := make_newLog e H logEntry timestamp in
         let logs := unshift_splice newLog logs in
         writeLogs e logs;;
         io_emit (Event "logIngested" newLog (length logs));;
         mret (Status201 newLog)
     end)
    (mret Status500).

(** ** GET /logs *)

(** The filter parameters of [req.query], each given once and as a plain
    string value, as the query interface has them; [None] is a parameter
    that the query string does not have.  (A parameter given twice or with
    brackets, which the parser turns into an array or an object, is not
    among these.) *)
Record criteria := Criteria {
  level : option string;
  message : option string;
  resourceId : option string;
  timestamp_start : option string;
  timestamp_end : option string;
  traceId : option string;
  spanId : option string;
  commit : option string
}.

(** [if (param)]: the parameter is there and is not the empty string. *)
Definition given (param : option string) : option string :=
  match param with
  | Some s => if truthy (Some (JStr s)) then Some s else None
  | None => None
  end.

(** [log => log.message.toLowerCase().includes(messageLower)]; the call of
    [toLowerCase] throws a TypeError unless [log.message] is a string. *)
Definition message_includes (H : host) (messageLower : string) (log : object)
  : option bool :=
  match log !! "message" with
  | Some (JStr m) => Some (includes (toLowerCase H m) messageLower)
  | _ => None
  end.

(** [filter] with a callback that can throw. *)
Fixpoint filter_throwing {A} (f : A → option bool) (l : list A) : option (list A) :=
  match l with
  | [] => Some []
  | x :: l' =>
      b ← f x;
      r ← filter_throwing f l';
      Some (if b : bool then x :: r else r)
  end.

(** [log => new Date(log.timestamp) >= startDate]; a comparison with an
    invalid date is false. *)
Definition not_before (H : host) (startDate : Z) (log : object) : bool :=
  match Date_getTime H (log !! "timestamp") with
  | Some t => startDate <=? t
  | None => false
  end.

(** [log => new Date(log.timestamp) <= endDate] *)
Definition not_after (H : host) (endDate : Z) (log : object) : bool :=
  match Date_getTime H (log !! "timestamp") with
  | Some t => t <=? endDate
  | None => false
  end.

(** [(a, b) => new Date(b.timestamp) - new Date(a.timestamp)], [None] for NaN. *)
Definition newest_first (H : host) (a b : object) : option Z :=
  match Date_getTime H (b !! "timestamp"), Date_getTime H (a !! "timestamp") with
  | Some tb, Some ta => Some (tb - ta)
  | _, _ => None
  end.

(** [Array.prototype.sort] is a stable sort; a comparator result of NaN
    counts as 0.  Insertion from the right is the stable sort: an element
    moves behind those it compares greater than, and stays in front of
    those it compares equal to. *)
Section Array_sort.
Context {A : Type} (comparefn : A → A → option Z).

Definition SortCompare (x y : A) : Z := default 0 (comparefn x y).

Fixpoint sort_insert (x : A) (l : list A) : list A :=
  match l with
  | [] => [x]
  | y :: l' => if 0 <? SortCompare x y then y :: sort_insert x l' else x :: l
  end.

Definition Array_sort (l : list A) : list A := foldr sort_insert [] l.
End Array_sort.

(** The body of the handler between [readLogs] and [res.json]; the test
    suite carries the same code under this name.  [None] is a thrown
    exception. *)
Definition applyFilters (H : host) (logs : list object) (filters : criteria)
  : option (list object) :=
  let filteredLogs := logs in
  let filteredLogs :=
    match given (level filters) with
    | Some level => List.filter (λ log, strict_eq (log !! "level") level) filteredLogs
    | None => filteredLogs
    end in
  filteredLogs ←
    match given (message filters) with
    | Some message =>
        let messageLower := toLowerCase H message in
        filter_throwing (message_includes H messageLower) filteredLogs
    | None => Some filteredLogs
    end;
  let filteredLogs :=
    match given (resourceId filters) with
    | Some resourceId =>
        List.filter (λ log, strict_eq (log !! "resourceId") resourceId) filteredLogs
    | None => filteredLogs
    end in
  let filteredLogs :=
    match given (timestamp_start filters) with
    | Some timestamp_start =>
        match Date_getTime H (Some (JStr timestamp_start)) with
        | Some startDate => List.filter (not_before H startDate) filteredLogs
        | None => filteredLogs
        end
    | None => filteredLogs
    end in
  let filteredLogs :=
    match given (timestamp_end filters) with
    | Some timestamp_end =>
        match Date_getTime H (Some (JStr timestamp_end)) with
        | Some endDate => List.filter (not_after H endDate) filteredLogs
        | None => filteredLogs
        end
    | None => filteredLogs
    end in
  let filteredLogs :=
    match given (traceId filters) with
    | Some traceId => List.filter (λ log, strict_eq (log !! "traceId") traceId) filteredLogs
    | None => filteredLogs
    end in
  let filteredLogs :=
    match given (spanId filters) with
    | Some spanId => List.filter (λ log, strict_eq (log !! "spanId") spanId) filteredLogs
    | None => filteredLogs
    end in
  let filteredLogs :=
    match given (commit filters) with
    | Some commit => List.filter (λ log, strict_eq (log !! "commit") commit) filteredLogs
    | None => filteredLogs
    end in
  Some (Array_sort (newest_first H) filteredLogs).

(** A thrown exception of the pure part carried into the handler. *)
Definition lift {A} (r : option A) : io A :=
  match r with
  | Some a => mret a
  | None => throw
  end.

Definition get_logs (H : host) (filters : criteria) : io response :=
  try_catch
    (logs ← readLogs;
     filteredLogs ← lift (applyFilters H logs filters);
     mret (Status200 filteredLogs))
    (mret Status500).

(** ** Views used by the statements *)

(** The collection as [readLogs] gives it. *)
Definition stored (s : server) : list object :=
  match db s with
  | db_logs logs => logs
  | _ => []
  end.

(** The record that a valid request stores. *)
Definition stored_record (H : host) (e : env) (logEntry : object) : object :=
  make_newLog e H logEntry
    (toISOString H (default 0 (Date_getTime H (logEntry !! "timestamp")))).

(** The time value of a record's [timestamp]. *)
Definition time_of (H : host) (log : object) : option Z :=
  Date_getTime H (log !! "timestamp").

(** A succession of ingest requests, each with its environment, served one
    after the other. *)
Fixpoint ingest_all (H : host) (requests : list (env * object)) (s : server) : server :=
  match requests with
  | [] => s
  | (e, logEntry) :: rest => ingest_all H rest (post_logs H e logEntry s).2
  end.

(** A request that passes validation and whose write completes. *)
Definition accepted (H : host) (request : env * object) : bool :=
  match validateLogEntry H request.2, fs_writeFile request.1 with
  | valid, write_ok => true
  | _, _ => false
  end.

(** *** The query, filter by filter

    [test] and [test_bound] are one [if (param) { ... }] block of the handler
    seen as a test on a single record; [passes] is all of them. *)
Definition test (param : option string) (f : string → object → bool)
    (log : object) : bool :=
  match given param with
  | Some v => f v log
  | None => true
  end.

Definition test_bound (H : host) (param : option string) (f : Z → object → bool)
    (log : object) : bool :=
  match given param with
  | Some v =>
      match Date_getTime H (Some (JStr v)) with
      | Some t => f t log
      | None => true
      end
  | None => true
  end.

Definition passes (H : host) (filters : criteria) (log : object) : bool :=
  test (level filters) (λ v log, strict_eq (log !! "level") v) log
  && test (message filters)
       (λ v log, default false (message_includes H (toLowerCase H v) log)) log
  && test (resourceId filters) (λ v log, strict_eq (log !! "resourceId") v) log
  && test_bound H (timestamp_start filters) (not_before H) log
  && test_bound H (timestamp_end filters) (not_after H) log
  && test (traceId filters) (λ v log, strict_eq (log !! "traceId") v) log
  && test (spanId filters) (λ v log, strict_eq (log !! "spanId") v) log
  && test (commit filters) (λ v log, strict_eq (log !! "commit") v) log.

(** A record whose [message] is a string, as the data model has it. *)
Definition has_message (log : object) : bool :=
  match log !! "message" with
  | Some (JStr _) => true
  | _ => false
  end.

(** What the message test needs of a collection: when a message criterion
    is supplied, every record has a string for its message. *)
Definition messages_are_text (filters : criteria) (logs : list object) : Prop :=
  is_Some (given (message filters)) → Forall (λ log, has_message log = true) logs.

(** The query meets a message that is not text: a message criterion is
    supplied, and some record that matches the level criterion has a message
    that is not a string. *)
Definition meets_non_text (filters : criteria) (logs : list object) : Prop :=
  (∃ v, message filters = Some v ∧ v ≠ ""%string)
  ∧ ∃ log, log ∈ logs ∧ has_message log = false
           ∧ ∀ v, level filters = Some v → v ≠ ""%string →
                  log !! "level" = Some (JStr v).


(** *** The criteria in the words of the specification *)

(** [sub] occurs in [text]. *)
Definition occurs_in (sub text : string) : Prop :=
  ∃ before after, text = before +:+ sub +:+ after.




(** A criterion is supplied when it is there and not empty; an exact-match
    criterion asks the field to be that very string. *)
Definition exact_match (field : string) (param : option string) (log : object) : Prop :=
  ∀ v, param = Some v → v ≠ ""%string → log !! field = Some (JStr v).

(** The message criterion: the criterion occurs in the message, both taken
    in lower case. *)
Definition message_match (H : host) (param : option string) (log : object) : Prop :=
  ∀ v, param = Some v → v ≠ ""%string →
    ∃ m, log !! "message" = Some (JStr m)
         ∧ occurs_in (toLowerCase H v) (toLowerCase H m).

(** A bound constrains the record only when it parses to a point in time. *)
Definition from_start (H : host) (param : option string) (log : object) : Prop :=
  ∀ v start, param = Some v → v ≠ ""%string →
    Date_getTime H (Some (JStr v)) = Some start →
    ∃ t, time_of H log = Some t ∧ start ≤ t.

Definition until_end (H : host) (param : option string) (log : object) : Prop :=
  ∀ v stop, param = Some v → v ≠ ""%string →
    Date_getTime H (Some (JStr v)) = Some stop →
    ∃ t, time_of H log = Some t ∧ t ≤ stop.

Definition satisfies (H : host) (filters : criteria) (log : object) : Prop :=
  exact_match "level" (level filters) log
  ∧ message_match H (message filters) log
  ∧ exact_match "resourceId" (resourceId filters) log
  ∧ from_start H (timestamp_start filters) log
  ∧ until_end H (timestamp_end filters) log
  ∧ exact_match "traceId" (traceId filters) log
  ∧ exact_match "spanId" (spanId filters) log
  ∧ exact_match "commit" (commit filters) log.

(** [a] comes before [b] in reverse-chronological order: both timestamps are
    points in time and [a]'s is not earlier than [b]'s. *)
Definition not_older (H : host) (a b : object) : Prop :=
  ∃ ta tb, time_of H a = Some ta ∧ time_of H b = Some tb ∧ tb ≤ ta.

(** ** Sample requests

    The record of the end-to-end scenario, an empty store with two connected
    sockets, and an environment in which the write completes. *)
Definition sample_entry : object :=
  list_to_map
    [("level", JStr "error"); ("message", JStr "Database connection failed");
     ("resourceId", JStr "db-server-01"); ("timestamp", JStr "2024-01-01T10:00:00Z");
     ("traceId", JStr "trace-001"); ("spanId", JStr "span-001");
     ("commit", JStr "abc123");
     ("metadata", JObj {[ "retryCount" := JNum 3 ]})]%string.

Definition empty_server : server := Server (db_logs []) [1; 2]%nat [].

Definition sample_env : env := Env 1704103200123 1704103200124 write_ok.

Definition no_filters : criteria :=
  Criteria None None None None None None None None.

(** The sample record with another timestamp, and a store into which three
    records were ingested at 11:00, 10:00 and 12:00, in that order. *)
Definition entry_at (timestamp : string) : object :=
  <["timestamp" := JStr timestamp]> sample_entry.

Definition three_records : server :=
  ingest_all Iso.iso
    [(sample_env, entry_at "2024-01-01T11:00:00Z");
     (sample_env, entry_at "2024-01-01T10:00:00Z");
     (sample_env, entry_at "2024-01-01T12:00:00Z")]
    empty_server.

Definition only_message (v : string) : criteria :=
  Criteria None (Some v) None None None None None None.

Definition only_bounds (timestamp_start timestamp_end : option string) : criteria :=
  Criteria None None None timestamp_start timestamp_end None None None.

(** A second record, ingested in the same millisecond as the sample one. *)
Definition second_entry : object :=
  <["message" := JStr "API rate limit exceeded"]> sample_entry.

(** The shapes of a [metadata] value: a key/value mapping, or a value that
    is neither a mapping nor an array ([undefined], [null], a boolean, a
    number, a string). *)
Definition is_mapping (v : option json) : bool :=
  match v with
  | Some (JObj _) => true
  | _ => false
  end.

Definition is_primitive (v : option json) : bool :=
  match v with
  | Some (JArr _) | Some (JObj _) => false
  | _ => true
  end.

(** In a trace, every broadcast comes after a completed write that holds
    the broadcast record. *)
Definition persisted_first (tr : list action) : Prop :=
  ∀ i ev to, tr !! i = Some (Broadcast ev to) →
    ∃ j logs, (j < i)%nat ∧ tr !! j = Some (Persisted logs) ∧ ev_log ev ∈ logs.

(** ** Startup: [initializeDatabase] and [startServer] *)

(** What the environment decides at startup: whether [fs.access] resolves
    on a file that is there but cannot be read, whether the [fs.writeFile]
    of the empty container completes, and whether [server.listen] gets the
    port. *)
Record boot := Boot {
  access_unreadable : bool;
  boot_writeFile : write_outcome;
  server_listen : bool
}.

(** [await fs.access(DB_FILE)] rejects when there is no file. *)
Definition fs_access (b : boot) : io () := λ s,
  match db s with
  | db_missing => (Throw, s)
  | db_unreadable => if access_unreadable b then (Return (), s) else (Throw, s)
  | _ => (Return (), s)
  end.

(** [await fs.writeFile(DB_FILE, JSON.stringify({ logs }, null, 2))] *)
Definition write_container (w : write_outcome) (logs : list object) : io () := λ s,
  match w with
  | write_ok =>
      (Return (), Server (db_logs logs) (sockets s) (trace s ++ [Persisted logs]))
  | write_error after => (Throw, Server after (sockets s) (trace s))
  end.

Definition initializeDatabase (b : boot) : io () :=
  try_catch (fs_access b) (write_container (boot_writeFile b) []).

(** What becomes of the process: it listens, or it exits with a code. *)
Inductive process :=
| Listening
| Exited (code : Z).

(** [try { await initializeDatabase(); server.listen(...) }
     catch (error) { process.exit(1) }].  When [server.listen] does not get
    the port the server emits an 'error' event that nothing listens to, and
    the process ends with code 1 as well. *)
Definition startServer (b : boot) (s : server) : process * server :=
  match initializeDatabase b s with
  | (Return _, s') => (if server_listen b then Listening else Exited 1, s')
  | (Throw, s') => (Exited 1, s')
  end.

(** ** The checks of [validateLogEntry], one by one *)

(** No required field is absent or falsy. *)
Definition complete (logEntry : object) : Prop :=
  Forall (λ field, truthy (logEntry !! field) = true) required.

(** The level is one of the four strings. *)
Definition level_ok (logEntry : object) : Prop :=
  ∃ L, logEntry !! "level" = Some (JStr L) ∧ L ∈ validLevels.

(** The timestamp is a point in time for [Date]. *)
Definition timestamp_ok (H : host) (logEntry : object) : Prop :=
  is_Some (Date_getTime H (logEntry !! "timestamp")).

(** The metadata is an array or a key/value mapping: what [typeof] calls an
    object, [null] apart. *)
Definition metadata_ok (logEntry : object) : Prop :=
  (∃ l, logEntry !! "metadata" = Some (JArr l))
  ∨ (∃ m, logEntry !! "metadata" = Some (JObj m)).

(** ** What a stored record looks like *)

(** The shape of a record written by the handler: a valid level, metadata
    of object type, the two times in canonical form, and an [id]. *)
Definition well_formed (H : host) (log : object) : Prop :=
  level_ok log
  ∧ metadata_ok log
  ∧ (∃ t, log !! "timestamp" = Some (JStr (toISOString H t)))
  ∧ (∃ t, log !! "ingestedAt" = Some (JStr (toISOString H t)))
  ∧ is_Some (log !! "id").

(** The records that a trace broadcast, in the order of the broadcasts. *)
Definition broadcast_logs (tr : list action) : list object :=
  omap (λ a, match a with
             | Broadcast ev _ => Some (ev_log ev)
             | Persisted _ => None
             end) tr.

(** A list of times that are all points in time, none later than one
    before it. *)
Fixpoint newest_firstb (times : list (option Z)) : bool :=
  match times with
  | [] => true
  | Some t :: rest =>
      forallb (λ o, match o with Some u => u <=? t | None => false end) rest
      && newest_firstb rest
  | None :: _ => false
  end.

(** The records whose timestamp is the point in time [t]. *)
Definition same_time (H : host) (t : Z) (log : object) : bool :=
  bool_decide (time_of H log = Some t).

(** A store into which two records were ingested in the order of their
    timestamps, 10:00 then 11:00. *)
Definition chronological : server :=
  ingest_all Iso.iso
    [(sample_env, entry_at "2024-01-01T10:00:00Z");
     (sample_env, entry_at "2024-01-01T11:00:00Z")]
    empty_server.

Definition only_level (v : string) : criteria :=
  Criteria (Some v) None None None None None None None.

(** The three records of [three_records], held in the opposite order. *)
Definition three_records_reversed : server :=
  Server (db_logs (rev (stored three_records))) [] [].

(** ** The sample host at work *)

Example iso_parse_example :
  Iso.parse "2024-01-01T10:00:00Z" = Some 1704103200000.
Proof. reflexivity. Qed.

Example iso_print_example :
  Iso.print 1704103200000 = "2024-01-01T10:00:00.000Z"%string.
Proof. reflexivity. Qed.

Example iso_parse_invalid : Iso.parse "invalid-date" = None.
Proof. reflexivity. Qed.

(** ** The handlers, unfolded *)

Lemma readLogs_stored s : readLogs s = (Return (stored s), s).
Proof.
  unfold readLogs, try_catch, read_parse_logs, stored, mbind, io_bind, mret, io_ret.
  by destruct (db s).
Qed.

Lemma valid_timestamp H logEntry :
  validateLogEntry H logEntry = valid →
  is_Some (Date_getTime H (logEntry !! "timestamp")).
Proof.
  unfold validateLogEntry. intros Hv.
  destruct (0 <? _)%nat; [done|].
  destruct (negb (Array_includes _ _)); [done|].
  destruct (bool_decide (is_Some _)) eqn:E; [|done].
  by apply bool_decide_eq_true in E.
Qed.

Lemma post_logs_unfold H e logEntry s :
  post_logs H e logEntry s =
  match validateLogEntry H logEntry with
  | invalid error => (Return (Status400 error), s)
  | valid =>
      let newLog := stored_record H e logEntry in
      let logs := unshift_splice newLog (stored s) in
      match fs_writeFile e with
      | write_ok =>
          (Return (Status201 newLog),
           Server (db_logs logs) (sockets s)
             (trace s ++ [Persisted logs;
                          Broadcast (Event "logIngested" newLog (length logs))
                                    (sockets s)]))
      | write_error after => (Return Status500, Server after (sockets s) (trace s))
      end
  end.
Proof.
  unfold post_logs, try_catch.
  destruct (validateLogEntry H logEntry) eqn:Hv; [|done].
  destruct (valid_timestamp _ _ Hv) as [t Ht].
  unfold mbind, io_bind. rewrite readLogs_stored.
  unfold Date_toISOString, stored_record. rewrite Ht. cbn [default].
  unfold mret, io_ret, writeLogs, io_emit.
  destruct (fs_writeFile e); cbn [db sockets trace]; [|done].
  by rewrite <- app_assoc.
Qed.

Lemma get_logs_unfold H filters s :
  get_logs H filters s =
  (match applyFilters H (stored s) filters with
   | Some filteredLogs => Return (Status200 filteredLogs)
   | None => Return Status500
   end, s).
Proof.
  unfold get_logs, try_catch, mbind, io_bind. rewrite readLogs_stored.
  by destruct (applyFilters H (stored s) filters).
Qed.

Lemma unshift_splice_take newLog logs :
  unshift_splice newLog logs = take cap (newLog :: logs).
Proof.
  unfold unshift_splice.
  destruct (Nat.ltb_spec cap (length (newLog :: logs))); [done|].
  by rewrite take_ge.
Qed.

Lemma unshift_splice_head newLog logs :
  head (unshift_splice newLog logs) = Some newLog.
Proof. by rewrite unshift_splice_take. Qed.

Lemma applyFilters_nil H filters : applyFilters H [] filters = Some [].
Proof.
  unfold applyFilters.
  destruct (given (level filters)), (given (message filters)),
    (given (resourceId filters)), (given (timestamp_start filters)),
    (given (timestamp_end filters)), (given (traceId filters)),
    (given (spanId filters)), (given (commit filters));
    cbn; repeat case_match; reflexivity.
Qed.

(** ** The ingestion pipeline *)

(** C1. The ingest handler is strictly ordered.  When validation fails the
    answer is the rejection and the server (file, sockets, trace) is left as
    it was.  When validation passes and the write fails the answer is the
    internal error and nothing is added to the trace, so nothing is
    broadcast.  When the write completes the trace grows by the completed
    write followed by the broadcast of the record that is at the head of
    what was written: a record is broadcast only after it is persisted, and
    persisted only after it passed validation. *)
Theorem ingest_strictly_ordered (H : host) (e : env) (logEntry : object) (s : server) :
  match validateLogEntry H logEntry with
  | invalid error => post_logs H e logEntry s = (Return (Status400 error), s)
  | valid =>
      match fs_writeFile e with
      | write_error after =>
          (post_logs H e logEntry s).1 = Return Status500
          ∧ trace (post_logs H e logEntry s).2 = trace s
      | write_ok =>
          ∃ newLog logs,
            (post_logs H e logEntry s).1 = Return (Status201 newLog)
            ∧ db (post_logs H e logEntry s).2 = db_logs logs
            ∧ head logs = Some newLog
            ∧ trace (post_logs H e logEntry s).2
              = trace s ++ [Persisted logs;
                            Broadcast (Event "logIngested" newLog (length logs))
                                      (sockets s)]
      end
  end.
Proof.
  rewrite post_logs_unfold.
  destruct (validateLogEntry H logEntry); [|done].
  destruct (fs_writeFile e); cbn; [|done].
  eexists _, _. repeat split. apply unshift_splice_head.
Qed.

(** The order holds along any succession of requests: an ingest keeps
    [persisted_first], and a query does not touch the server. *)
Lemma post_logs_persisted_first H e logEntry s :
  persisted_first (trace s) →
  persisted_first (trace (post_logs H e logEntry s).2).
Proof.
  intros Hs. rewrite post_logs_unfold.
  destruct (validateLogEntry H logEntry); [|done].
  destruct (fs_writeFile e); cbn [snd trace]; [|done].
  intros i ev to Hi.
  destruct (decide (i < length (trace s))%nat) as [Hlt|Hge].
  - rewrite lookup_app_l in Hi by done.
    destruct (Hs i ev to Hi) as (j & logs & Hj & Hlook & Hin).
    exists j, logs. repeat split; [done| |done].
    rewrite lookup_app_l by lia. done.
  - rewrite lookup_app_r in Hi by lia.
    destruct (i - length (trace s))%nat as [|[|k]] eqn:Hk; cbn in Hi; [done| |done].
    injection Hi as <- <-.
    exists (length (trace s)), (unshift_splice (stored_record H e logEntry) (stored s)).
    repeat split; [lia| |].
    + rewrite lookup_app_r by lia. by rewrite Nat.sub_diag.
    + cbn [ev_log]. apply head_Some_elem_of, unshift_splice_head.
Qed.

(** C9. A successful ingest emits exactly one broadcast, to the sockets
    connected at that moment; the event carries the stored record (the one
    returned to the caller, which is at the head of the written collection)
    and the size of the collection as written, after the insertion and the
    truncation to the cap. *)
Theorem ingest_broadcasts_once (H : host) (e : env) (logEntry : object)
    (s : server) (newLog : object) :
  (post_logs H e logEntry s).1 = Return (Status201 newLog) →
  ∃ logs,
    db (post_logs H e logEntry s).2 = db_logs logs
    ∧ logs = newLog :: take 999 (stored s)
    ∧ head logs = Some newLog
    ∧ length logs = min 1000 (S (length (stored s)))
    ∧ trace (post_logs H e logEntry s).2
      = trace s
        ++ [Persisted logs;
            Broadcast (Event "logIngested" newLog
                         (min 1000 (S (length (stored s)))))
                      (sockets s)].
Proof.
  rewrite post_logs_unfold.
  destruct (validateLogEntry H logEntry); [|done].
  destruct (fs_writeFile e); cbn; [|done].
  intros [= <-]. eexists. split; [done|].
  assert (unshift_splice (stored_record H e logEntry) (stored s)
          = stored_record H e logEntry :: take 999 (stored s)) as ->
    by (by rewrite unshift_splice_take).
  assert (length (stored_record H e logEntry :: take 999 (stored s))
          = min 1000 (S (length (stored s)))) as Hlen
    by (cbn [length]; rewrite length_take; lia).
  rewrite Hlen. by repeat split.
Qed.

Lemma ingest_broadcasts_once_witness :
  ∃ logs,
    db (post_logs Iso.iso sample_env sample_entry empty_server).2 = db_logs logs
    ∧ logs = stored_record Iso.iso sample_env sample_entry
             :: take 999 (stored empty_server)
    ∧ head logs = Some (stored_record Iso.iso sample_env sample_entry)
    ∧ length logs = min 1000 (S (length (stored empty_server)))
    ∧ trace (post_logs Iso.iso sample_env sample_entry empty_server).2
      = trace empty_server
        ++ [Persisted logs;
            Broadcast (Event "logIngested"
                         (stored_record Iso.iso sample_env sample_entry)
                         (min 1000 (S (length (stored empty_server)))))
                      (sockets empty_server)].
Proof.
  apply (ingest_broadcasts_once Iso.iso sample_env sample_entry empty_server).
  vm_compute. reflexivity.
Defined.

(** C10. When the database file is missing, unreadable, not JSON, or has no
    [logs] field, [readLogs] returns the empty collection and raises nothing.
    A query then answers with the empty result, and an ingest that succeeds
    writes a container holding the new record alone. *)
Theorem unusable_file_reads_empty (H : host) (s : server) :
  db s = db_missing ∨ db s = db_unreadable ∨ db s = db_corrupt ∨ db s = db_no_logs →
  readLogs s = (Return [], s)
  ∧ (∀ filters, get_logs H filters s = (Return (Status200 []), s))
  ∧ (∀ e logEntry newLog,
       (post_logs H e logEntry s).1 = Return (Status201 newLog) →
       db (post_logs H e logEntry s).2 = db_logs [newLog]).
Proof.
  intros Hdb.
  assert (stored s = []) as Hs
    by (unfold stored; destruct Hdb as [->|[->|[->| ->]]]; done).
  split; [by rewrite readLogs_stored, Hs|].
  split.
  - intros filters. by rewrite get_logs_unfold, Hs, applyFilters_nil.
  - intros e logEntry newLog. rewrite post_logs_unfold, Hs.
    destruct (validateLogEntry H logEntry); [|done].
    destruct (fs_writeFile e); cbn; [|done].
    by intros [= <-].
Qed.

Lemma unusable_file_reads_empty_witness :
  let s := Server db_corrupt [1]%nat [] in
  readLogs s = (Return [], s)
  ∧ (∀ filters, get_logs Iso.iso filters s = (Return (Status200 []), s))
  ∧ (∀ e logEntry newLog,
       (post_logs Iso.iso e logEntry s).1 = Return (Status201 newLog) →
       db (post_logs Iso.iso e logEntry s).2 = db_logs [newLog]).
Proof.
  apply (unusable_file_reads_empty Iso.iso (Server db_corrupt [1]%nat [])).
  right. right. left. reflexivity.
Defined.

(** ** Retention *)

Lemma accepted_created H e logEntry s :
  accepted H (e, logEntry) = true ↔
  (post_logs H e logEntry s).1 = Return (Status201 (stored_record H e logEntry)).
Proof.
  rewrite post_logs_unfold. unfold accepted. cbn [fst snd].
  destruct (validateLogEntry H logEntry); [|done].
  by destruct (fs_writeFile e).
Qed.

Lemma accepted_stored H e logEntry s :
  accepted H (e, logEntry) = true →
  stored (post_logs H e logEntry s).2
  = take cap (stored_record H e logEntry :: stored s).
Proof.
  rewrite post_logs_unfold. unfold accepted. cbn [fst snd].
  destruct (validateLogEntry H logEntry); [|done].
  destruct (fs_writeFile e); [|done].
  intros _. cbn [snd]. unfold stored at 1. cbn [db].
  apply unshift_splice_take.
Qed.

Lemma take_app_take {A} (n : nat) (l1 l2 : list A) :
  take n (l1 ++ take n l2) = take n (l1 ++ l2).
Proof.
  rewrite !take_app, take_take. do 2 f_equal. lia.
Qed.

Lemma ingest_all_stored H requests s :
  Forall (λ r, accepted H r = true) requests →
  requests ≠ [] →
  stored (ingest_all H requests s)
  = take cap (rev (map (λ r, stored_record H r.1 r.2) requests) ++ stored s).
Proof.
  intros Hall. revert s.
  induction Hall as [|[e logEntry] rest Hacc Hrest IH]; intros s Hne; [done|].
  cbn [ingest_all map rev fst snd].
  rewrite <- app_assoc. cbn [app].
  destruct rest as [|r rest'].
  - cbn [ingest_all map rev app]. by apply accepted_stored.
  - rewrite IH by done.
    rewrite (accepted_stored _ _ _ _ Hacc). apply take_app_take.
Qed.

(** C2. After requests that succeed, served from any state of the store,
    the collection is the first 1000 records of the new records, newest
    first, followed by the old collection: it holds at most 1000 records,
    the newest record is at its head, and what is dropped is the tail of
    that sequence, the records inserted first, whatever their timestamps.
    After 1001 such requests exactly the last 1000 records are left and the
    one inserted first is gone. *)
Theorem retention_cap (H : host) (requests : list (env * object)) (s : server) :
  Forall (λ r, accepted H r = true) requests →
  requests ≠ [] →
  let inserted := map (λ r, stored_record H r.1 r.2) requests in
  let kept := stored (ingest_all H requests s) in
  (length kept ≤ 1000)%nat
  ∧ head kept = last inserted
  ∧ (∃ evicted, rev inserted ++ stored s = kept ++ evicted)
  ∧ (length requests = 1001%nat →
     kept = rev (tail inserted) ∧ length kept = 1000%nat).
Proof.
  intros Hall Hne inserted kept.
  assert (kept = take cap (rev inserted ++ stored s)) as Hkept
    by (by apply ingest_all_stored).
  assert (inserted ≠ []) as Hins by (subst inserted; by destruct requests).
  split; [|split; [|split]].
  - rewrite Hkept, length_take. unfold cap. lia.
  - rewrite Hkept.
    destruct (rev inserted) as [|x l] eqn:Hrev;
      apply (f_equal (@rev _)) in Hrev; rewrite rev_involutive in Hrev; [done|].
    rewrite Hrev. cbn [rev]. by rewrite last_snoc.
  - exists (drop cap (rev inserted ++ stored s)).
    by rewrite Hkept, take_drop.
  - intros Hlen.
    assert (length inserted = 1001%nat) as Hlen'
      by (subst inserted; by rewrite length_map).
    destruct inserted as [|x rest]; [done|].
    cbn [tail]. cbn [length] in Hlen'.
    assert (length (rev rest) = cap) as Hrest
      by (rewrite length_rev; unfold cap; lia).
    assert (kept = rev rest) as ->.
    { rewrite Hkept. cbn [rev]. rewrite <- !app_assoc.
      rewrite take_app_length'; done. }
    split; [done|]. rewrite Hrest. done.
Qed.

Lemma retention_cap_witness :
  let requests := replicate 1001 (sample_env, sample_entry) in
  let inserted := map (λ r, stored_record Iso.iso r.1 r.2) requests in
  let kept := stored (ingest_all Iso.iso requests empty_server) in
  (length kept ≤ 1000)%nat
  ∧ head kept = last inserted
  ∧ (∃ evicted, rev inserted ++ stored empty_server = kept ++ evicted)
  ∧ (length requests = 1001%nat →
     kept = rev (tail inserted) ∧ length kept = 1000%nat).
Proof.
  apply (retention_cap Iso.iso (replicate 1001 (sample_env, sample_entry))
           empty_server).
  - apply Forall_replicate. vm_compute. reflexivity.
  - discriminate.
Defined.

(** ** Strings *)

Lemma append_nil s : "" +:+ s = s.
Proof. reflexivity. Qed.

Lemma append_cons c s t : String c s +:+ t = String c (s +:+ t).
Proof. reflexivity. Qed.

Lemma prefix_app sub s :
  String.prefix sub s = true ↔ ∃ rest, s = sub +:+ rest.
Proof.
  revert s. induction sub as [|a sub IH]; intros s.
  - split; [intros _; by exists s|by destruct s].
  - destruct s as [|b s]; cbn [String.prefix].
    + split; [done|]. intros [rest Hrest]. by rewrite append_cons in Hrest.
    + destruct (ascii_dec a b) as [->|Hab].
      * rewrite IH. split; intros [rest Hrest]; exists rest.
        -- by rewrite append_cons, Hrest.
        -- rewrite append_cons in Hrest. congruence.
      * split; [done|]. intros [rest Hrest].
        rewrite append_cons in Hrest. congruence.
Qed.

Lemma includes_app s sub :
  includes s sub = true ↔ ∃ before after, s = before +:+ sub +:+ after.
Proof.
  induction s as [|c s IH]; cbn [includes]; rewrite orb_true_iff, prefix_app.
  - split.
    + intros [[rest Hrest]|]; [|done]. by exists ""%string, rest.
    + intros [[|? ?] [after Hs]]; [left; by exists after|done].
  - rewrite IH. split.
    + intros [[rest Hrest]|[before [after Hs]]].
      * by exists ""%string, rest.
      * exists (String c before), after. by rewrite append_cons, Hs.
    + intros [[|c' before] [after Hs]].
      * left. by exists after.
      * right. exists before, after. rewrite append_cons in Hs. congruence.
Qed.

(** *** The sample [toLowerCase] and equality up to case *)







(** ** Sorting *)

Section sort_facts.
Context {A : Type} (comparefn : A → A → option Z).

Lemma sort_insert_perm x l : sort_insert comparefn x l ≡ₚ x :: l.
Proof.
  induction l as [|y l IH]; cbn; [done|].
  destruct (0 <? SortCompare comparefn x y); [|done].
  rewrite IH. apply Permutation_swap.
Qed.

Lemma Array_sort_cons x l :
  Array_sort comparefn (x :: l) = sort_insert comparefn x (Array_sort comparefn l).
Proof. reflexivity. Qed.

Lemma Array_sort_perm l : Array_sort comparefn l ≡ₚ l.
Proof.
  induction l as [|x l IH]; [done|].
  by rewrite Array_sort_cons, sort_insert_perm, IH.
Qed.
End sort_facts.

Lemma newest_first_compare H a b ta tb :
  time_of H a = Some ta → time_of H b = Some tb →
  SortCompare (newest_first H) a b = tb - ta.
Proof.
  unfold SortCompare, newest_first, time_of. by intros -> ->.
Qed.

Lemma sort_insert_newest_first H x l :
  is_Some (time_of H x) →
  Forall (λ y, is_Some (time_of H y)) l →
  StronglySorted (not_older H) l →
  StronglySorted (not_older H) (sort_insert (newest_first H) x l).
Proof.
  intros [tx Hx] Hl Hsorted.
  induction Hsorted as [|y l Hsorted IH Hy]; cbn.
  - repeat constructor.
  - apply Forall_cons in Hl as [[ty Hty] Hl].
    rewrite (newest_first_compare _ _ _ _ _ Hx Hty).
    destruct (Z.ltb_spec 0 (ty - tx)).
    + constructor; [by apply IH|].
      rewrite sort_insert_perm. constructor; [|done].
      exists ty, tx. repeat split; [done..|lia].
    + constructor; [by constructor|].
      constructor; [exists tx, ty; repeat split; [done..|lia]|].
      eapply Forall_impl; [exact Hy|].
      intros z (ty' & tz & Hty' & Htz & Hle).
      exists tx, tz. repeat split; [done..|]. simplify_eq. lia.
Qed.

Lemma Array_sort_newest_first H l :
  Forall (λ y, is_Some (time_of H y)) l →
  StronglySorted (not_older H) (Array_sort (newest_first H) l).
Proof.
  induction 1 as [|x l Hx Hl IH]; [constructor|].
  rewrite Array_sort_cons.
  apply sort_insert_newest_first; [done| |done].
  by rewrite Array_sort_perm.
Qed.

(** ** The query as one filter followed by the sort *)

Lemma filter_all {A} (l : list A) : List.filter (λ _, true) l = l.
Proof. induction l as [|x l IH]; cbn; congruence. Qed.

Lemma filter_and {A} (f g : A → bool) (l : list A) :
  List.filter g (List.filter f l) = List.filter (λ x, f x && g x) l.
Proof.
  induction l as [|x l IH]; cbn; [done|].
  destruct (f x); cbn; [|done]. destruct (g x); by rewrite IH.
Qed.

Lemma test_filter param f (l : list object) :
  match given param with
  | Some v => List.filter (f v) l
  | None => l
  end = List.filter (test param f) l.
Proof.
  unfold test. destruct (given param); [done|]. by rewrite filter_all.
Qed.

Lemma test_bound_filter H param f (l : list object) :
  match given param with
  | Some v =>
      match Date_getTime H (Some (JStr v)) with
      | Some t => List.filter (f t) l
      | None => l
      end
  | None => l
  end = List.filter (test_bound H param f) l.
Proof.
  unfold test_bound. destruct (given param); [|by rewrite filter_all].
  destruct (Date_getTime H _); [done|]. by rewrite filter_all.
Qed.

Lemma filter_throwing_total H messageLower (l : list object) :
  Forall (λ log, has_message log = true) l →
  filter_throwing (message_includes H messageLower) l
  = Some (List.filter (λ log, default false (message_includes H messageLower log)) l).
Proof.
  induction 1 as [|log l Hlog _ IH]; [done|].
  cbn [filter_throwing List.filter]. rewrite IH.
  unfold has_message in Hlog. unfold message_includes.
  destruct (log !! "message") as [[]|]; try discriminate. done.
Qed.

Lemma message_filter H param (l : list object) :
  (is_Some (given param) → Forall (λ log, has_message log = true) l) →
  match given param with
  | Some message => filter_throwing (message_includes H (toLowerCase H message)) l
  | None => Some l
  end
  = Some (List.filter
            (test param (λ v log, default false (message_includes H (toLowerCase H v) log)))
            l).
Proof.
  intros Hl. unfold test. destruct (given param) as [v|].
  - by rewrite filter_throwing_total by eauto.
  - by rewrite filter_all.
Qed.

Lemma Forall_List_filter {A} (P : A → Prop) (f : A → bool) (l : list A) :
  Forall P l → Forall P (List.filter f l).
Proof.
  induction 1 as [|x l Hx _ IH]; cbn; [done|].
  destruct (f x); by try constructor.
Qed.

Lemma applyFilters_passes H logs filters :
  messages_are_text filters logs →
  applyFilters H logs filters
  = Some (Array_sort (newest_first H) (List.filter (passes H filters) logs)).
Proof.
  intros Hmsg. unfold applyFilters. cbv zeta.
  rewrite (test_filter (level filters) (λ v log, strict_eq (log !! "level") v)).
  rewrite message_filter by (intros ?; apply Forall_List_filter; auto).
  cbn [mbind option_bind].
  rewrite (test_filter (resourceId filters) (λ v log, strict_eq (log !! "resourceId") v)).
  rewrite (test_bound_filter H (timestamp_start filters) (not_before H)).
  rewrite (test_bound_filter H (timestamp_end filters) (not_after H)).
  rewrite (test_filter (traceId filters) (λ v log, strict_eq (log !! "traceId") v)).
  rewrite (test_filter (spanId filters) (λ v log, strict_eq (log !! "spanId") v)).
  rewrite (test_filter (commit filters) (λ v log, strict_eq (log !! "commit") v)).
  rewrite !filter_and. do 2 f_equal.
  apply List.filter_ext. intros log. unfold passes. by rewrite !andb_assoc.
Qed.

(** ** The tests of the handler and the criteria of the specification *)

Lemma given_Some param v : given param = Some v ↔ param = Some v ∧ v ≠ ""%string.
Proof.
  unfold given, truthy. destruct param as [s|]; [|by split; [|intros []]].
  destruct (String.eqb_spec s ""); cbn; split.
  - done.
  - intros [[= ->] ?]. done.
  - intros [= ->]. done.
  - intros [[= ->] _]. done.
Qed.

Lemma given_None param : given param = None ↔ param = None ∨ param = Some ""%string.
Proof.
  unfold given, truthy. destruct param as [s|]; [|by split; [left|]].
  destruct (String.eqb_spec s ""); cbn; split.
  - intros _. right. by subst.
  - done.
  - done.
  - intros [|[= ->]]; done.
Qed.

Lemma strict_eq_true o v : strict_eq o v = true ↔ o = Some (JStr v).
Proof.
  unfold strict_eq. destruct o as [[]|]; try (split; [discriminate|congruence]).
  rewrite String.eqb_eq. split; congruence.
Qed.

Lemma test_exact field param log :
  test param (λ v log, strict_eq (log !! field) v) log = true
  ↔ exact_match field param log.
Proof.
  unfold test, exact_match. destruct (given param) as [v|] eqn:Hg.
  - apply given_Some in Hg as [-> Hv]. rewrite strict_eq_true.
    split; [by intros ? ? [= <-] _|eauto].
  - apply given_None in Hg as [->| ->]; split; try done.
    by intros _ ? [= <-] ?.
Qed.

Lemma test_message H param log :
  test param (λ v log, default false (message_includes H (toLowerCase H v) log)) log
  = true
  ↔ message_match H param log.
Proof.
  unfold test, message_match. destruct (given param) as [v|] eqn:Hg.
  - apply given_Some in Hg as [-> Hv]. unfold message_includes. split.
    + intros Hinc v' [= <-] _.
      destruct (log !! "message") as [[| | |m| |]|]; try discriminate.
      exists m. split; [done|]. by apply includes_app.
    + intros Hm. destruct (Hm v eq_refl Hv) as (m & -> & Hc).
      by apply includes_app.
  - apply given_None in Hg as [->| ->]; split; try done.
    by intros _ ? [= <-] ?.
Qed.

Lemma test_start H param log :
  test_bound H param (not_before H) log = true ↔ from_start H param log.
Proof.
  unfold test_bound, from_start, not_before, time_of.
  destruct (given param) as [v|] eqn:Hg.
  - apply given_Some in Hg as [-> Hv].
    destruct (Date_getTime H (Some (JStr v))) as [start|] eqn:Hparse; split.
    + intros Ht v' start' [= <-] _ Hparse'.
      rewrite Hparse in Hparse'. injection Hparse' as <-.
      destruct (Date_getTime H (log !! "timestamp")) as [t|]; [|done].
      exists t. split; [done|lia].
    + intros Hb. destruct (Hb v start eq_refl Hv Hparse) as (t & -> & ?). lia.
    + intros _ v' ? [= <-] _ Hparse'. by rewrite Hparse in Hparse'.
    + done.
  - apply given_None in Hg as [->| ->]; split; try done.
    by intros _ ? ? [= <-] ?.
Qed.

Lemma test_end H param log :
  test_bound H param (not_after H) log = true ↔ until_end H param log.
Proof.
  unfold test_bound, until_end, not_after, time_of.
  destruct (given param) as [v|] eqn:Hg.
  - apply given_Some in Hg as [-> Hv].
    destruct (Date_getTime H (Some (JStr v))) as [stop|] eqn:Hparse; split.
    + intros Ht v' stop' [= <-] _ Hparse'.
      rewrite Hparse in Hparse'. injection Hparse' as <-.
      destruct (Date_getTime H (log !! "timestamp")) as [t|]; [|done].
      exists t. split; [done|lia].
    + intros Hb. destruct (Hb v stop eq_refl Hv Hparse) as (t & -> & ?). lia.
    + intros _ v' ? [= <-] _ Hparse'. by rewrite Hparse in Hparse'.
    + done.
  - apply given_None in Hg as [->| ->]; split; try done.
    by intros _ ? ? [= <-] ?.
Qed.

Lemma passes_satisfies H filters log :
  passes H filters log = true ↔ satisfies H filters log.
Proof.
  unfold passes, satisfies.
  rewrite !andb_true_iff, !test_exact, test_message, test_start, test_end.
  tauto.
Qed.

Lemma query_result H s filters :
  messages_are_text filters (stored s) →
  ∃ result,
    get_logs H filters s = (Return (Status200 result), s)
    ∧ result = Array_sort (newest_first H) (List.filter (passes H filters) (stored s))
    ∧ ∀ log, log ∈ result ↔ log ∈ stored s ∧ satisfies H filters log.
Proof.
  intros Hmsg. eexists. rewrite get_logs_unfold, applyFilters_passes by done.
  split; [done|]. split; [done|].
  intros log. rewrite Array_sort_perm, !list_elem_of_In, filter_In.
  by rewrite passes_satisfies.
Qed.

Lemma Forall_forallb {A} (f : A → bool) (l : list A) :
  forallb f l = true → Forall (λ x, f x = true) l.
Proof.
  induction l as [|x l IH]; cbn; [constructor|].
  rewrite andb_true_iff. intros [Hx Hl]. constructor; auto.
Qed.

Lemma Forall_is_Some {A B} (g : A → option B) (l : list A) :
  forallb (λ x, match g x with Some _ => true | None => false end) l = true →
  Forall (λ x, is_Some (g x)) l.
Proof.
  induction l as [|x l IH]; cbn; [constructor|].
  rewrite andb_true_iff. intros [Hx Hl].
  constructor; [by destruct (g x)|auto].
Qed.

Lemma passes_no_filters H log : passes H no_filters log = true.
Proof. reflexivity. Qed.

(** ** The query engine *)

(** C8. With the two timestamp criteria alone, the query succeeds whatever
    the bounds are, and keeps exactly the records whose timestamp is a point
    in time not before the start and not after the end, each bound counting
    only if it is supplied and parses to a point in time; both bounds are
    inclusive.  When no supplied bound parses, every record is kept. *)
Theorem timestamp_bounds_inclusive (H : host) (s : server)
    (timestamp_start timestamp_end : option string) :
  ∃ result,
    get_logs H (only_bounds timestamp_start timestamp_end) s
    = (Return (Status200 result), s)
    ∧ (∀ log, log ∈ result ↔
         log ∈ stored s
         ∧ from_start H timestamp_start log ∧ until_end H timestamp_end log)
    ∧ ((∀ v, timestamp_start = Some v → Date_getTime H (Some (JStr v)) = None) →
       (∀ v, timestamp_end = Some v → Date_getTime H (Some (JStr v)) = None) →
       result ≡ₚ stored s).
Proof.
  destruct (query_result H s (only_bounds timestamp_start timestamp_end))
    as (result & Hget & Hres & Hin).
  { by intros [? ?]. }
  exists result. split; [done|]. split.
  - intros log. rewrite Hin. apply and_iff_compat_l.
    unfold satisfies, only_bounds. cbn. split; [tauto|].
    intros [? ?]. repeat split; done.
  - intros Hstart Hend. rewrite Hres, Array_sort_perm.
    rewrite (List.filter_ext _ (λ _, true)), filter_all; [done|].
    intros log. apply passes_satisfies. unfold satisfies, only_bounds. cbn.
    repeat split; try done.
    + intros v start Hv _ Hparse. by rewrite (Hstart v Hv) in Hparse.
    + intros v stop Hv _ Hparse. by rewrite (Hend v Hv) in Hparse.
Qed.

Lemma timestamp_bounds_inclusive_witness :
  ∃ result,
    get_logs Iso.iso (only_bounds (Some "invalid-date") (Some "2024-01-01T11:00:00Z"))
      three_records
    = (Return (Status200 result), three_records)
    ∧ (∀ log, log ∈ result ↔
         log ∈ stored three_records
         ∧ from_start Iso.iso (Some "invalid-date") log
         ∧ until_end Iso.iso (Some "2024-01-01T11:00:00Z") log)
    ∧ ((∀ v, Some "invalid-date" = Some v →
             Date_getTime Iso.iso (Some (JStr v)) = None) →
       (∀ v, Some "2024-01-01T11:00:00Z" = Some v →
             Date_getTime Iso.iso (Some (JStr v)) = None) →
       result ≡ₚ stored three_records).
Proof.
  exact (timestamp_bounds_inclusive Iso.iso three_records
           (Some "invalid-date") (Some "2024-01-01T11:00:00Z")).
Defined.

(** ** Validation *)

Lemma missing_nil (logEntry : object) :
  Forall (λ field, truthy (logEntry !! field) = true) required →
  List.filter (λ field, negb (truthy (logEntry !! field))) required = [].
Proof.
  induction 1 as [|field l Hfield _ IH]; cbn; [done|].
  by rewrite Hfield.
Qed.

Lemma missing_metadata (logEntry : object) :
  truthy (logEntry !! "metadata") = false →
  "metadata" ∈ List.filter (λ field, negb (truthy (logEntry !! field))) required.
Proof.
  intros Hm. apply list_elem_of_In, filter_In. split.
  - unfold required. cbn. tauto.
  - by rewrite Hm.
Qed.

(** C3, as the code has it.  A candidate whose metadata is [null], a
    primitive value or absent never passes validation.  When the metadata is
    falsy ([null], [false], [0], the empty string, or absent) the reason is
    the list of missing fields, which names metadata; when it is a truthy
    primitive and the earlier checks pass (no required field missing, a
    valid level, a timestamp that parses) the reason is InvalidMetadata. *)
Theorem metadata_primitive_rejected (H : host) (logEntry : object) :
  is_primitive (logEntry !! "metadata") = true →
  validateLogEntry H logEntry ≠ valid
  ∧ (truthy (logEntry !! "metadata") = false →
     ∃ missing,
       validateLogEntry H logEntry = invalid (MissingFields missing)
       ∧ "metadata" ∈ missing)
  ∧ (Forall (λ field, truthy (logEntry !! field) = true) required →
     Array_includes validLevels (logEntry !! "level") = true →
     is_Some (Date_getTime H (logEntry !! "timestamp")) →
     validateLogEntry H logEntry = invalid InvalidMetadata).
Proof.
  intros Hprim. split; [|split].
  - unfold validateLogEntry.
    destruct (0 <? _)%nat; [done|].
    destruct (negb (Array_includes _ _)); [done|].
    destruct (negb (bool_decide _)); [done|].
    by destruct (logEntry !! "metadata") as [[]|].
  - intros Hfalsy. eexists. split; [|by apply missing_metadata].
    unfold validateLogEntry.
    pose proof (missing_metadata _ Hfalsy) as Hin.
    destruct (List.filter _ required); [by apply elem_of_nil in Hin|done].
  - intros Hreq Hlevel Htime. unfold validateLogEntry.
    rewrite (missing_nil _ Hreq), Hlevel, (bool_decide_eq_true_2 _ Htime).
    cbn [length Nat.ltb Nat.leb negb].
    assert (truthy (logEntry !! "metadata") = true) as Htruthy.
    { rewrite Forall_forall in Hreq. apply Hreq.
      unfold required. set_solver. }
    by destruct (logEntry !! "metadata") as [[]|].
Qed.

Lemma metadata_primitive_rejected_witness :
  let logEntry := <["metadata" := JStr "not-an-object"]> sample_entry in
  validateLogEntry Iso.iso logEntry ≠ valid
  ∧ (truthy (logEntry !! "metadata") = false →
     ∃ missing,
       validateLogEntry Iso.iso logEntry = invalid (MissingFields missing)
       ∧ "metadata" ∈ missing)
  ∧ (Forall (λ field, truthy (logEntry !! field) = true) required →
     Array_includes validLevels (logEntry !! "level") = true →
     is_Some (Date_getTime Iso.iso (logEntry !! "timestamp")) →
     validateLogEntry Iso.iso logEntry = invalid InvalidMetadata).
Proof.
  apply (metadata_primitive_rejected Iso.iso
           (<["metadata" := JStr "not-an-object"]> sample_entry)).
  vm_compute. reflexivity.
Defined.

(** A key/value mapping passes the metadata check: with the earlier checks
    passed, the candidate is valid. *)
Lemma metadata_mapping_accepted H (logEntry : object) :
  is_mapping (logEntry !! "metadata") = true →
  Forall (λ field, truthy (logEntry !! field) = true) required →
  Array_includes validLevels (logEntry !! "level") = true →
  is_Some (Date_getTime H (logEntry !! "timestamp")) →
  validateLogEntry H logEntry = valid.
Proof.
  intros Hmap Hreq Hlevel Htime. unfold validateLogEntry.
  rewrite (missing_nil _ Hreq), Hlevel, (bool_decide_eq_true_2 _ Htime).
  cbn [length Nat.ltb Nat.leb negb].
  by destruct (logEntry !! "metadata") as [[]|].
Qed.

(** C3, as stated, fails: a candidate whose metadata is [null], with every
    other field in order, is not a key/value mapping and is rejected for its
    missing fields, not for its metadata. *)
Lemma metadata_null_reported_missing :
  let logEntry := <["metadata" := JNull]> sample_entry in
  is_mapping (logEntry !! "metadata") = false
  ∧ validateLogEntry Iso.iso logEntry = invalid (MissingFields ["metadata"%string])
  ∧ validateLogEntry Iso.iso logEntry ≠ invalid InvalidMetadata.
Proof. cbv zeta. repeat split; vm_compute; (reflexivity || discriminate). Qed.

(** An array passes the metadata check of [validateLogEntry]: [typeof] of
    an array is "object". *)
Example metadata_array_passes :
  validateLogEntry Iso.iso (<["metadata" := JArr [JNum 1; JNum 2]]> sample_entry)
  = valid.
Proof. vm_compute. reflexivity. Qed.

(** ** Identifiers *)

Lemma stored_record_id H e (logEntry : object) :
  stored_record H e logEntry !! "id"
  = Some (default (JStr (pretty (Date_now e))) (logEntry !! "id")).
Proof.
  unfold stored_record, make_newLog.
  rewrite !lookup_insert_ne, lookup_union by done.
  rewrite lookup_singleton_eq. by destruct (logEntry !! "id").
Qed.

(** C4 on the code: two different valid records ingested one after the
    other while [Date.now()] gives the same millisecond are both created and
    both stored, and carry the same [id]. *)
Theorem same_millisecond_same_id :
  let first := stored_record Iso.iso sample_env sample_entry in
  let second := stored_record Iso.iso sample_env second_entry in
  let s1 := (post_logs Iso.iso sample_env sample_entry empty_server).2 in
  let s2 := (post_logs Iso.iso sample_env second_entry s1).2 in
  (post_logs Iso.iso sample_env sample_entry empty_server).1
  = Return (Status201 first)
  ∧ (post_logs Iso.iso sample_env second_entry s1).1 = Return (Status201 second)
  ∧ stored s2 = [second; first]
  ∧ first ≠ second
  ∧ first !! "id" = Some (JStr "1704103200123")
  ∧ second !! "id" = Some (JStr "1704103200123").
Proof.
  cbv zeta.
  assert (accepted Iso.iso (sample_env, sample_entry) = true) as Hfirst
    by (vm_compute; reflexivity).
  assert (accepted Iso.iso (sample_env, second_entry) = true) as Hsecond
    by (vm_compute; reflexivity).
  split; [by apply accepted_created|].
  split; [by apply accepted_created|].
  split.
  { rewrite (accepted_stored _ _ _ _ Hsecond), (accepted_stored _ _ _ _ Hfirst).
    reflexivity. }
  split; [|split; rewrite stored_record_id; vm_compute; reflexivity].
  intros Heq. apply (f_equal (λ log : object, log !! "message")) in Heq.
  vm_compute in Heq. discriminate.
Qed.

(** ** What ingestion guarantees about the stored fields

    On a host where the canonical form parses back to the time value it
    prints, the stored [timestamp] is the point in time of the candidate's.
    Validation asks the other fields to be truthy only: a [message] that is
    a number is stored, and a later query by message is answered with the
    internal error. *)
Lemma stored_record_time H e (logEntry : object) :
  (∀ t, Date_getTime H (Some (JStr (toISOString H t))) = Some t) →
  validateLogEntry H logEntry = valid →
  time_of H (stored_record H e logEntry) = Date_getTime H (logEntry !! "timestamp")
  ∧ is_Some (time_of H (stored_record H e logEntry)).
Proof.
  intros Hround Hvalid.
  destruct (valid_timestamp _ _ Hvalid) as [t Ht].
  unfold time_of, stored_record, make_newLog.
  rewrite lookup_insert_ne, lookup_insert_eq by done.
  rewrite Ht. cbn [default]. by rewrite Hround.
Qed.

Lemma post_logs_keeps_times H e (logEntry : object) s :
  (∀ t, Date_getTime H (Some (JStr (toISOString H t))) = Some t) →
  fs_writeFile e = write_ok →
  Forall (λ log, is_Some (time_of H log)) (stored s) →
  Forall (λ log, is_Some (time_of H log)) (stored (post_logs H e logEntry s).2).
Proof.
  intros Hround Hwrite Hs. rewrite post_logs_unfold.
  destruct (validateLogEntry H logEntry) eqn:Hvalid; [|done].
  rewrite Hwrite. cbn [snd]. unfold stored at 1. cbn [db].
  rewrite unshift_splice_take. apply Forall_take.
  constructor; [|done]. by apply stored_record_time.
Qed.

Example numeric_message_is_stored :
  let logEntry := <["message" := JNum 42]> sample_entry in
  let s := (post_logs Iso.iso sample_env logEntry empty_server).2 in
  validateLogEntry Iso.iso logEntry = valid
  ∧ length (stored s) = 1%nat
  ∧ (get_logs Iso.iso (only_message "database") s).1 = Return Status500.
Proof. cbv zeta. repeat split; vm_compute; reflexivity. Qed.

(** ** The end-to-end scenario *)

Example ingest_then_query :
  let s := (post_logs Iso.iso sample_env sample_entry empty_server).2 in
  let filters :=
    Criteria (Some "error") (Some "database") None None None None None None in
  (get_logs Iso.iso filters s).1
  = Return (Status200 [stored_record Iso.iso sample_env sample_entry])
  ∧ stored_record Iso.iso sample_env sample_entry !! "timestamp"
    = Some (JStr "2024-01-01T10:00:00.000Z")
  ∧ stored_record Iso.iso sample_env sample_entry !! "ingestedAt"
    = Some (JStr "2024-01-01T10:00:00.124Z").
Proof. cbv zeta. repeat split; vm_compute; reflexivity. Qed.

Example three_records_newest_first :
  let r10 := stored_record Iso.iso sample_env (entry_at "2024-01-01T10:00:00Z") in
  let r11 := stored_record Iso.iso sample_env (entry_at "2024-01-01T11:00:00Z") in
  let r12 := stored_record Iso.iso sample_env (entry_at "2024-01-01T12:00:00Z") in
  stored three_records = [r12; r10; r11]
  ∧ (get_logs Iso.iso no_filters three_records).1 = Return (Status200 [r12; r11; r10])
  ∧ time_of Iso.iso r10 = Some 1704103200000
  ∧ time_of Iso.iso r11 = Some 1704106800000
  ∧ time_of Iso.iso r12 = Some 1704110400000.
Proof. cbv zeta. repeat split; vm_compute; reflexivity. Qed.

(** ** More on validation *)

Lemma filter_nil_Forall {A} (f : A → bool) (l : list A) :
  List.filter f l = [] ↔ Forall (λ x, f x = false) l.
Proof.
  induction l as [|x l IH]; cbn; [by split; [constructor|]|].
  rewrite Forall_cons, <- IH. destruct (f x); intuition congruence.
Qed.

Lemma missing_complete (logEntry : object) :
  List.filter (λ field, negb (truthy (logEntry !! field))) required = []
  ↔ complete logEntry.
Proof.
  rewrite filter_nil_Forall. unfold complete.
  apply Forall_iff. intros field. by destruct (truthy _).
Qed.

Lemma Array_includes_level (logEntry : object) :
  Array_includes validLevels (logEntry !! "level") = true ↔ level_ok logEntry.
Proof.
  unfold Array_includes, level_ok. rewrite existsb_exists. split.
  - intros (L & HL & Heq). apply strict_eq_true in Heq.
    exists L. split; [done|]. by apply list_elem_of_In.
  - intros (L & Heq & HL). exists L. split; [by apply list_elem_of_In|].
    by apply strict_eq_true.
Qed.

Lemma typeof_object (logEntry : object) :
  negb (String.eqb (typeof (logEntry !! "metadata")) "object")
  || match logEntry !! "metadata" with Some JNull => true | _ => false end = false
  ↔ metadata_ok logEntry.
Proof.
  unfold metadata_ok.
  destruct (logEntry !! "metadata") as [[]|]; cbn;
    (split; [intros ?|intros [[? ?]|[? ?]]]); try done; eauto.
Qed.

(** The validator as the first check that fails. *)
Lemma validateLogEntry_cases H (logEntry : object) :
  (¬ complete logEntry
   ∧ ∃ missing, validateLogEntry H logEntry = invalid (MissingFields missing)
       ∧ missing ≠ []
       ∧ missing = List.filter (λ field, negb (truthy (logEntry !! field))) required)
  ∨ (complete logEntry ∧ ¬ level_ok logEntry
     ∧ validateLogEntry H logEntry = invalid InvalidLevel)
  ∨ (complete logEntry ∧ level_ok logEntry ∧ ¬ timestamp_ok H logEntry
     ∧ validateLogEntry H logEntry = invalid InvalidTimestamp)
  ∨ (complete logEntry ∧ level_ok logEntry ∧ timestamp_ok H logEntry
     ∧ ¬ metadata_ok logEntry
     ∧ validateLogEntry H logEntry = invalid InvalidMetadata)
  ∨ (complete logEntry ∧ level_ok logEntry ∧ timestamp_ok H logEntry
     ∧ metadata_ok logEntry
     ∧ validateLogEntry H logEntry = valid).
Proof.
  unfold validateLogEntry.
  pose proof (missing_complete logEntry) as Hmissing.
  destruct (List.filter _ required) as [|field missing] eqn:Hfilter.
  - right. assert (complete logEntry) as Hc by (by apply Hmissing).
    cbn [length Nat.ltb Nat.leb].
    pose proof (Array_includes_level logEntry) as Hlevel.
    destruct (Array_includes validLevels _); cbn [negb].
    + assert (level_ok logEntry) as Hl by (by apply Hlevel).
      right. unfold timestamp_ok.
      destruct (decide (is_Some (Date_getTime H (logEntry !! "timestamp"))))
        as [Ht|Ht].
      * rewrite (bool_decide_eq_true_2 _ Ht). cbn [negb]. right.
        pose proof (typeof_object logEntry) as Hmeta.
        destruct (negb _ || _).
        -- left. repeat split; try done. intros Hm. by apply Hmeta in Hm.
        -- right. repeat split; try done. by apply Hmeta.
      * rewrite (bool_decide_eq_false_2 _ Ht). cbn [negb]. by left.
    + left. repeat split; try done. intros Hl. by apply Hlevel in Hl.
  - left. split; [intros Hc; by apply Hmissing in Hc|].
    by exists (field :: missing).
Qed.

(** X1. A candidate passes validation exactly when all four checks hold:
    the eight required fields are all truthy, the level is one of error,
    warn, info, debug, the timestamp is a point in time, and the metadata is
    an array or a key/value mapping. *)
Theorem validation_passes_iff (H : host) (logEntry : object) :
  validateLogEntry H logEntry = valid
  ↔ complete logEntry ∧ level_ok logEntry ∧ timestamp_ok H logEntry
    ∧ metadata_ok logEntry.
Proof.
  destruct (validateLogEntry_cases H logEntry)
    as [(? & ? & -> & ?)|[(? & ? & ->)|[(? & ? & ? & ->)|[(? & ? & ? & ? & ->)|
        (? & ? & ? & ? & ->)]]]]; intuition (try congruence); eauto;
    destruct_and?; try done.
Qed.

(** X2. When some required field is absent or falsy, the rejection names
    the missing fields: exactly the required fields that are absent or
    falsy, in the order of the schema, whatever the level, timestamp and
    metadata are. *)
Theorem missing_fields_reported (H : host) (logEntry : object) :
  ¬ complete logEntry →
  ∃ missing,
    validateLogEntry H logEntry = invalid (MissingFields missing)
    ∧ missing ≠ []
    ∧ (∀ field, field ∈ missing
                ↔ field ∈ required ∧ truthy (logEntry !! field) = false)
    ∧ sublist missing required.
Proof.
  intros Hc.
  destruct (validateLogEntry_cases H logEntry)
    as [(_ & missing & Hv & Hne & Hm)|[(? & _)|[(? & _)|[(? & _)|(? & _)]]]];
    try done.
  exists missing. split; [done|]. split; [done|]. subst missing. split.
  - intros field. rewrite list_elem_of_In, filter_In, <- list_elem_of_In.
    destruct (truthy _); cbn; intuition congruence.
  - clear. induction required as [|f l IH]; cbn; [constructor|].
    destruct (negb _); by constructor.
Qed.

Lemma missing_fields_reported_witness :
  ∃ missing,
    validateLogEntry Iso.iso (delete "commit" (delete "level" sample_entry))
    = invalid (MissingFields missing)
    ∧ missing ≠ []
    ∧ (∀ field, field ∈ missing
                ↔ field ∈ required
                  ∧ truthy (delete "commit" (delete "level" sample_entry) !! field)
                    = false)
    ∧ sublist missing required.
Proof.
  apply (missing_fields_reported Iso.iso
           (delete "commit" (delete "level" sample_entry))).
  unfold complete. rewrite Forall_forall. intros Hall.
  specialize (Hall "level"). vm_compute in Hall.
  assert (false = true) by (apply Hall; set_solver). discriminate.
Defined.

(** X3. The reason of a rejection is the first check that fails, in the
    order missing fields, level, timestamp, metadata: an invalid level is
    reported only when nothing is missing, an unparseable timestamp only
    when moreover the level is valid, and the metadata only when the three
    earlier checks pass. *)
Theorem rejection_reason (H : host) (logEntry : object) :
  ((∃ missing, validateLogEntry H logEntry = invalid (MissingFields missing))
   ↔ ¬ complete logEntry)
  ∧ (validateLogEntry H logEntry = invalid InvalidLevel
     ↔ complete logEntry ∧ ¬ level_ok logEntry)
  ∧ (validateLogEntry H logEntry = invalid InvalidTimestamp
     ↔ complete logEntry ∧ level_ok logEntry ∧ ¬ timestamp_ok H logEntry)
  ∧ (validateLogEntry H logEntry = invalid InvalidMetadata
     ↔ complete logEntry ∧ level_ok logEntry ∧ timestamp_ok H logEntry
       ∧ ¬ metadata_ok logEntry).
Proof.
  destruct (validateLogEntry_cases H logEntry)
    as [(? & ? & -> & ?)|[(? & ? & ->)|[(? & ? & ? & ->)|[(? & ? & ? & ? & ->)|
        (? & ? & ? & ? & ->)]]]];
    (repeat split; [intros [? ?]|intros ?|..]; intros; destruct_and?;
     try done; eauto).
Qed.

(** ** More on ingestion *)

Lemma stored_record_lookup H e (logEntry : object) (k : string) :
  k ≠ "id"%string → k ≠ "timestamp"%string → k ≠ "ingestedAt"%string →
  stored_record H e logEntry !! k = logEntry !! k.
Proof.
  intros Hid Htime Hing. unfold stored_record, make_newLog.
  rewrite !lookup_insert_ne, lookup_union, lookup_singleton_ne by done.
  by destruct (logEntry !! k).
Qed.

Lemma stored_record_timestamp H e (logEntry : object) :
  stored_record H e logEntry !! "timestamp"
  = Some (JStr (toISOString H (default 0 (Date_getTime H (logEntry !! "timestamp"))))).
Proof.
  unfold stored_record, make_newLog.
  by rewrite lookup_insert_ne, lookup_insert_eq.
Qed.

Lemma stored_record_ingestedAt H e (logEntry : object) :
  stored_record H e logEntry !! "ingestedAt"
  = Some (JStr (toISOString H (new_Date e))).
Proof. unfold stored_record, make_newLog. by rewrite lookup_insert_eq. Qed.

Lemma accepted_valid H e logEntry :
  accepted H (e, logEntry) = true
  ↔ validateLogEntry H logEntry = valid ∧ fs_writeFile e = write_ok.
Proof.
  unfold accepted. cbn [fst snd].
  destruct (validateLogEntry H logEntry), (fs_writeFile e);
    split; (done || by intros [? ?]).
Qed.

(** X4. What the handler answers with and stores is the candidate with
    three fields set by the server.  Every other field of the request body,
    whether the schema knows it or not, is kept as it came; [timestamp]
    is the canonical form of the candidate's; [ingestedAt] is the server's
    clock, also when the body carries one; and [id] is the clock reading
    only when the body has no [id] of its own, which otherwise is kept. *)
Theorem created_record_fields (H : host) (e : env) (logEntry : object) (s : server) :
  accepted H (e, logEntry) = true →
  ∃ newLog t,
    (post_logs H e logEntry s).1 = Return (Status201 newLog)
    ∧ head (stored (post_logs H e logEntry s).2) = Some newLog
    ∧ (∀ k, k ≠ "id"%string → k ≠ "timestamp"%string → k ≠ "ingestedAt"%string →
         newLog !! k = logEntry !! k)
    ∧ Date_getTime H (logEntry !! "timestamp") = Some t
    ∧ newLog !! "timestamp" = Some (JStr (toISOString H t))
    ∧ newLog !! "ingestedAt" = Some (JStr (toISOString H (new_Date e)))
    ∧ newLog !! "id"
      = Some (default (JStr (pretty (Date_now e))) (logEntry !! "id")).
Proof.
  intros Hacc.
  destruct (proj1 (accepted_valid _ _ _) Hacc) as [Hvalid _].
  destruct (valid_timestamp _ _ Hvalid) as [t Ht].
  exists (stored_record H e logEntry), t.
  split; [by apply accepted_created|].
  split; [by rewrite accepted_stored|].
  split; [apply stored_record_lookup|].
  split; [done|].
  split; [by rewrite stored_record_timestamp, Ht|].
  split; [apply stored_record_ingestedAt|apply stored_record_id].
Qed.

Lemma created_record_fields_witness :
  let logEntry :=
    <["id" := JStr "mine"]> (<["ingestedAt" := JStr "yesterday"]> sample_entry) in
  ∃ newLog t,
    (post_logs Iso.iso sample_env logEntry empty_server).1
    = Return (Status201 newLog)
    ∧ head (stored (post_logs Iso.iso sample_env logEntry empty_server).2)
      = Some newLog
    ∧ (∀ k, k ≠ "id"%string → k ≠ "timestamp"%string → k ≠ "ingestedAt"%string →
         newLog !! k = logEntry !! k)
    ∧ Date_getTime Iso.iso (logEntry !! "timestamp") = Some t
    ∧ newLog !! "timestamp" = Some (JStr (toISOString Iso.iso t))
    ∧ newLog !! "ingestedAt"
      = Some (JStr (toISOString Iso.iso (new_Date sample_env)))
    ∧ newLog !! "id"
      = Some (default (JStr (pretty (Date_now sample_env))) (logEntry !! "id")).
Proof.
  apply (created_record_fields Iso.iso sample_env
           (<["id" := JStr "mine"]>
              (<["ingestedAt" := JStr "yesterday"]> sample_entry))
           empty_server).
  vm_compute. reflexivity.
Defined.

Lemma stored_record_well_formed H e (logEntry : object) :
  validateLogEntry H logEntry = valid →
  well_formed H (stored_record H e logEntry).
Proof.
  intros Hvalid.
  apply validation_passes_iff in Hvalid as (Hc & (L & HL & HLin) & [t Ht] & Hm).
  unfold well_formed, level_ok, metadata_ok.
  rewrite stored_record_timestamp, stored_record_ingestedAt, stored_record_id.
  rewrite !stored_record_lookup by done.
  split; [by exists L|]. split; [done|].
  split; [by eexists|]. split; by eexists.
Qed.

Lemma post_logs_well_formed H e logEntry s :
  fs_writeFile e = write_ok →
  Forall (well_formed H) (stored s) →
  Forall (well_formed H) (stored (post_logs H e logEntry s).2).
Proof.
  intros Hwrite Hs. rewrite post_logs_unfold.
  destruct (validateLogEntry H logEntry) eqn:Hvalid; [|done].
  rewrite Hwrite. cbn [snd]. unfold stored at 1. cbn [db].
  rewrite unshift_splice_take. apply Forall_take.
  constructor; [by apply stored_record_well_formed|done].
Qed.

(** X5. No invalid level, timestamp or metadata is ever persisted.  Along
    any run of ingest requests whose writes complete, from a collection of
    well-formed records (the empty one, for instance), every record of the
    collection is well formed: its level is one of the four strings, its
    metadata is an array or a key/value mapping, its timestamp and
    ingestedAt are strings in canonical form, and it has an id. *)
Theorem stored_records_well_formed (H : host) (requests : list (env * object))
    (s : server) :
  Forall (λ r, fs_writeFile r.1 = write_ok) requests →
  Forall (well_formed H) (stored s) →
  Forall (well_formed H) (stored (ingest_all H requests s)).
Proof.
  intros Hwrites. revert s.
  induction Hwrites as [|[e logEntry] rest Hw _ IH]; intros s Hs; [done|].
  cbn [ingest_all]. apply IH. by apply post_logs_well_formed.
Qed.

Lemma stored_records_well_formed_witness :
  Forall (well_formed Iso.iso)
    (stored (ingest_all Iso.iso
               [(sample_env, sample_entry);
                (sample_env, <["level" := JStr "ERROR"]> sample_entry);
                (sample_env, second_entry)]
               empty_server)).
Proof.
  apply stored_records_well_formed.
  - repeat constructor.
  - constructor.
Defined.

Lemma post_logs_trace H e logEntry s :
  trace (post_logs H e logEntry s).2
  = trace s
    ++ (if accepted H (e, logEntry)
        then let newLog := stored_record H e logEntry in
             let logs := unshift_splice newLog (stored s) in
             [Persisted logs;
              Broadcast (Event "logIngested" newLog (length logs)) (sockets s)]
        else []).
Proof.
  rewrite post_logs_unfold. unfold accepted. cbn [fst snd].
  destruct (validateLogEntry H logEntry); [|by rewrite app_nil_r].
  destruct (fs_writeFile e); cbn [snd trace]; [done|by rewrite app_nil_r].
Qed.

(** X6. Along any run of ingest requests, the records that are broadcast
    are the records created for the accepted requests, once each and in the
    order of the requests: a request that is rejected, or whose write
    fails, broadcasts nothing.  And if every broadcast of the trace came
    after a completed write holding its record, this is still so after the
    run. *)
Theorem run_broadcasts (H : host) (requests : list (env * object)) (s : server) :
  persisted_first (trace s) →
  broadcast_logs (trace (ingest_all H requests s))
  = broadcast_logs (trace s)
    ++ map (λ r, stored_record H r.1 r.2) (List.filter (accepted H) requests)
  ∧ persisted_first (trace (ingest_all H requests s)).
Proof.
  revert s. induction requests as [|[e logEntry] rest IH]; intros s Hs.
  - cbn. by rewrite app_nil_r.
  - cbn [ingest_all List.filter].
    destruct (IH (post_logs H e logEntry s).2) as [Hlogs Hfirst];
      [by apply post_logs_persisted_first|].
    split; [|done]. rewrite Hlogs, post_logs_trace.
    unfold broadcast_logs. rewrite omap_app.
    destruct (accepted H (e, logEntry)); cbn; [|by rewrite app_nil_r].
    by rewrite <- app_assoc.
Qed.

Lemma run_broadcasts_witness :
  let requests :=
    [(sample_env, sample_entry);
     (sample_env, <["level" := JStr "ERROR"]> sample_entry);
     (sample_env, second_entry)] in
  broadcast_logs (trace (ingest_all Iso.iso requests empty_server))
  = broadcast_logs (trace empty_server)
    ++ map (λ r, stored_record Iso.iso r.1 r.2)
         (List.filter (accepted Iso.iso) requests)
  ∧ persisted_first (trace (ingest_all Iso.iso requests empty_server)).
Proof.
  apply (run_broadcasts Iso.iso
           [(sample_env, sample_entry);
            (sample_env, <["level" := JStr "ERROR"]> sample_entry);
            (sample_env, second_entry)]
           empty_server).
  intros i ev to Hi. cbn in Hi. by rewrite lookup_nil in Hi.
Defined.

(** X7. Read your write.  Right after an accepted ingest, from any state of
    the store, the query without criteria answers with the new record among
    its results, and its results are, up to order, the collection that was
    just written: the new record and the first 999 of the old ones. *)
Theorem ingest_then_query_all (H : host) (e : env) (logEntry : object) (s : server) :
  accepted H (e, logEntry) = true →
  let s' := (post_logs H e logEntry s).2 in
  ∃ newLog result,
    (post_logs H e logEntry s).1 = Return (Status201 newLog)
    ∧ get_logs H no_filters s' = (Return (Status200 result), s')
    ∧ newLog ∈ result
    ∧ result ≡ₚ newLog :: take 999 (stored s).
Proof.
  intros Hacc s'.
  destruct (query_result H s' no_filters) as (result & Hget & Hres & _);
    [by intros [? ?]|].
  exists (stored_record H e logEntry), result.
  split; [by apply accepted_created|]. split; [done|].
  rewrite (List.filter_ext _ (λ _, true) (passes_no_filters H)), filter_all in Hres.
  assert (result ≡ₚ stored_record H e logEntry :: take 999 (stored s)) as Hperm.
  { rewrite Hres, Array_sort_perm. subst s'. by rewrite accepted_stored. }
  split; [|done]. rewrite Hperm. by left.
Qed.

Lemma ingest_then_query_all_witness :
  let s' := (post_logs Iso.iso sample_env second_entry three_records).2 in
  ∃ newLog result,
    (post_logs Iso.iso sample_env second_entry three_records).1
    = Return (Status201 newLog)
    ∧ get_logs Iso.iso no_filters s' = (Return (Status200 result), s')
    ∧ newLog ∈ result
    ∧ result ≡ₚ newLog :: take 999 (stored three_records).
Proof.
  apply (ingest_then_query_all Iso.iso sample_env second_entry three_records).
  vm_compute. reflexivity.
Defined.

(** ** More on the query *)

Lemma filter_throwing_None {A} (f : A → option bool) (l : list A) :
  filter_throwing f l = None ↔ ∃ x, x ∈ l ∧ f x = None.
Proof.
  induction l as [|x l IH]; cbn [filter_throwing].
  - split; [done|]. intros (x & Hx & _). by apply elem_of_nil in Hx.
  - destruct (f x) as [b|] eqn:Hfx; cbn.
    + destruct (filter_throwing f l) as [r|]; cbn.
      * split; [done|]. intros (y & Hy & Hfy).
        apply elem_of_cons in Hy as [->|Hy]; [congruence|].
        assert (Some r = None) as Hnone by (apply IH; eauto). done.
      * split; [|done]. intros _.
        destruct (proj1 IH eq_refl) as (y & Hy & Hfy).
        exists y. split; [by right|done].
    + split; [|done]. intros _. exists x. split; [by left|done].
Qed.

Lemma applyFilters_passes_level H logs filters :
  (is_Some (given (message filters)) →
   Forall (λ log, has_message log = true)
     (List.filter (test (level filters) (λ v log, strict_eq (log !! "level") v)) logs)) →
  applyFilters H logs filters
  = Some (Array_sort (newest_first H) (List.filter (passes H filters) logs)).
Proof.
  intros Hmsg. unfold applyFilters. cbv zeta.
  rewrite (test_filter (level filters) (λ v log, strict_eq (log !! "level") v)).
  rewrite message_filter by done.
  cbn [mbind option_bind].
  rewrite (test_filter (resourceId filters) (λ v log, strict_eq (log !! "resourceId") v)).
  rewrite (test_bound_filter H (timestamp_start filters) (not_before H)).
  rewrite (test_bound_filter H (timestamp_end filters) (not_after H)).
  rewrite (test_filter (traceId filters) (λ v log, strict_eq (log !! "traceId") v)).
  rewrite (test_filter (spanId filters) (λ v log, strict_eq (log !! "spanId") v)).
  rewrite (test_filter (commit filters) (λ v log, strict_eq (log !! "commit") v)).
  rewrite !filter_and. do 2 f_equal.
  apply List.filter_ext. intros log. unfold passes. by rewrite !andb_assoc.
Qed.

Lemma applyFilters_throws H logs filters :
  is_Some (given (message filters)) →
  (∃ log, log ∈ logs ∧ exact_match "level" (level filters) log
          ∧ has_message log = false) →
  applyFilters H logs filters = None.
Proof.
  intros [m Hm] (log & Hin & Hlevel & Hlog). unfold applyFilters. cbv zeta.
  rewrite (test_filter (level filters) (λ v log, strict_eq (log !! "level") v)).
  rewrite Hm.
  replace (filter_throwing _ _) with (@None (list object)); [done|].
  symmetry. apply filter_throwing_None. exists log. split.
  - apply list_elem_of_In, filter_In. split; [by apply list_elem_of_In|].
    by apply test_exact.
  - unfold has_message in Hlog. unfold message_includes.
    by destruct (log !! "message") as [[]|].
Qed.

(** The query either throws, when a message criterion meets a message that
    is not a string, or is the filter by [passes] followed by the sort. *)
Lemma applyFilters_cases H logs filters :
  (applyFilters H logs filters = None
   ∧ is_Some (given (message filters))
   ∧ ∃ log, log ∈ logs ∧ exact_match "level" (level filters) log
            ∧ has_message log = false)
  ∨ applyFilters H logs filters
    = Some (Array_sort (newest_first H) (List.filter (passes H filters) logs)).
Proof.
  destruct (given (message filters)) as [m|] eqn:Hm.
  - destruct (decide (Forall (λ log, has_message log = true)
                (List.filter (test (level filters)
                   (λ v log, strict_eq (log !! "level") v)) logs))) as [Hall|Hnot].
    + right. by apply applyFilters_passes_level.
    + left. apply not_Forall_Exists in Hnot; [|solve_decision].
      apply Exists_exists in Hnot as (log & Hin & Hlog).
      apply list_elem_of_In, filter_In in Hin as [Hin Hlevel].
      assert (∃ log, log ∈ logs ∧ exact_match "level" (level filters) log
                     ∧ has_message log = false) as Hex.
      { exists log. split; [by apply list_elem_of_In|].
        split; [by apply test_exact|]. by apply not_true_is_false. }
      split; [|split; [by eexists|done]].
      apply applyFilters_throws; [rewrite Hm; by eexists|done].
  - right. apply applyFilters_passes_level. rewrite Hm. by intros [? ?].
Qed.

Lemma sublist_List_filter {A} (f : A → bool) (l : list A) :
  sublist (List.filter f l) l.
Proof.
  induction l as [|x l IH]; cbn; [constructor|].
  destruct (f x); by constructor.
Qed.

Lemma sort_insert_same_time H t x l :
  List.filter (same_time H t) (sort_insert (newest_first H) x l)
  = List.filter (same_time H t) (x :: l).
Proof.
  induction l as [|y l IH]; [done|]. cbn [sort_insert].
  destruct (0 <? SortCompare (newest_first H) x y) eqn:Hcmp; [|done].
  cbn [List.filter] in *. rewrite IH.
  destruct (same_time H t x) eqn:Hx; [|done].
  destruct (same_time H t y) eqn:Hy; [|done].
  unfold same_time in Hx, Hy.
  apply bool_decide_eq_true in Hx, Hy.
  rewrite (newest_first_compare _ _ _ _ _ Hx Hy) in Hcmp. lia.
Qed.

Lemma Array_sort_same_time H t l :
  List.filter (same_time H t) (Array_sort (newest_first H) l)
  = List.filter (same_time H t) l.
Proof.
  induction l as [|x l IH]; [done|].
  rewrite Array_sort_cons, sort_insert_same_time. cbn. by rewrite IH.
Qed.

(** X9. A query never invents a record and never repeats one: what it
    answers is, with multiplicity, part of the collection.  And among the
    records of the answer, those with one and the same timestamp come in
    the order in which the collection holds them, the one ingested last
    first (the timestamps of the collection being points in time, so that
    the comparator is an order). *)
Theorem query_result_from_store (H : host) (s : server) (filters : criteria)
    (result : list object) :
  (get_logs H filters s).1 = Return (Status200 result) →
  result ⊆+ stored s
  ∧ (Forall (λ log, is_Some (time_of H log)) (stored s) →
     ∀ t, sublist (List.filter (same_time H t) result) (stored s)).
Proof.
  rewrite get_logs_unfold. cbn [fst].
  destruct (applyFilters_cases H (stored s) filters) as [(-> & _)| ->]; [done|].
  intros [= <-]. split.
  - rewrite Array_sort_perm. apply sublist_submseteq, sublist_List_filter.
  - intros _ t. rewrite Array_sort_same_time.
    etrans; apply sublist_List_filter.
Qed.

Lemma query_result_from_store_witness :
  let result :=
    Array_sort (newest_first Iso.iso)
      (List.filter (passes Iso.iso (only_message "DATABASE")) (stored three_records)) in
  result ⊆+ stored three_records
  ∧ (Forall (λ log, is_Some (time_of Iso.iso log)) (stored three_records) →
     ∀ t, sublist (List.filter (same_time Iso.iso t) result) (stored three_records)).
Proof.
  apply (query_result_from_store Iso.iso three_records (only_message "DATABASE")).
  rewrite get_logs_unfold. cbn [fst].
  rewrite applyFilters_passes; [done|].
  intros _. apply Forall_forallb. vm_compute. reflexivity.
Defined.

Lemma sort_insert_front H x l :
  StronglySorted (not_older H) (x :: l) →
  sort_insert (newest_first H) x l = x :: l.
Proof.
  intros Hsorted. destruct l as [|y l]; [done|].
  apply StronglySorted_inv in Hsorted as [_ Hx].
  apply Forall_cons in Hx as [(tx & ty & Hx & Hy & Hle) _].
  cbn [sort_insert]. rewrite (newest_first_compare _ _ _ _ _ Hx Hy).
  destruct (Z.ltb_spec 0 (ty - tx)); [lia|done].
Qed.

Lemma Array_sort_sorted H l :
  StronglySorted (not_older H) l → Array_sort (newest_first H) l = l.
Proof.
  induction 1 as [|x l Hl IH Hx]; [done|].
  rewrite Array_sort_cons, IH. apply sort_insert_front. by constructor.
Qed.

Lemma Forall_of_sublist {A} (P : A → Prop) (l k : list A) :
  sublist k l → Forall P l → Forall P k.
Proof.
  induction 1 as [|x k l Hsub IH|x k l Hsub IH]; intros Hl; [done| |].
  - apply Forall_cons in Hl as [? ?]. constructor; auto.
  - apply Forall_cons in Hl as [? ?]. auto.
Qed.

Lemma StronglySorted_sublist {A} (R : A → A → Prop) (l k : list A) :
  sublist k l → StronglySorted R l → StronglySorted R k.
Proof.
  induction 1 as [|x k l Hsub IH|x k l Hsub IH]; intros Hl; [done| |].
  - apply StronglySorted_inv in Hl as [Hl Hx].
    constructor; [auto|]. by eapply Forall_of_sublist.
  - apply StronglySorted_inv in Hl as [Hl _]. auto.
Qed.

(** X10. When the collection is held newest first, a query answers with the
    records that satisfy the criteria in the very order of the collection;
    without criteria the answer is the collection itself.  So as long as
    records are ingested with timestamps that do not go back in time, the
    order of the answer is the order of insertion, newest first. *)
Theorem sorted_store_answered_in_order (H : host) (s : server) (filters : criteria)
    (result : list object) :
  StronglySorted (not_older H) (stored s) →
  (get_logs H filters s).1 = Return (Status200 result) →
  sublist result (stored s)
  ∧ get_logs H no_filters s = (Return (Status200 (stored s)), s).
Proof.
  intros Hsorted. rewrite !get_logs_unfold. cbn [fst]. split.
  - destruct (applyFilters_cases H (stored s) filters) as [(Hnone & _)|Hsome].
    { by rewrite Hnone in *. }
    rewrite Hsome in *. simplify_eq.
    rewrite Array_sort_sorted; [apply sublist_List_filter|].
    eapply StronglySorted_sublist; [apply sublist_List_filter|done].
  - rewrite applyFilters_passes by (by intros [? ?]).
    rewrite (List.filter_ext _ (λ _, true) (passes_no_filters H)), filter_all.
    by rewrite Array_sort_sorted.
Qed.

Lemma sorted_by_times H l :
  newest_firstb (map (time_of H) l) = true → StronglySorted (not_older H) l.
Proof.
  induction l as [|x l IH]; cbn [map newest_firstb]; [constructor|].
  destruct (time_of H x) as [t|] eqn:Hx; [|done].
  rewrite andb_true_iff, forallb_forall. intros [Hall Hrest].
  constructor; [auto|]. apply Forall_forall. intros y Hy.
  specialize (Hall (time_of H y)).
  destruct (time_of H y) as [u|] eqn:Hu.
  - exists t, u. repeat split; [done..|].
    apply Z.leb_le, Hall, in_map_iff. exists y. split; [done|].
    by apply list_elem_of_In.
  - assert (false = true); [|done].
    apply Hall, in_map_iff. exists y. split; [done|]. by apply list_elem_of_In.
Qed.

Lemma sorted_store_answered_in_order_witness :
  let result :=
    Array_sort (newest_first Iso.iso)
      (List.filter (passes Iso.iso (only_message "DATABASE")) (stored chronological)) in
  sublist result (stored chronological)
  ∧ get_logs Iso.iso no_filters chronological
    = (Return (Status200 (stored chronological)), chronological).
Proof.
  apply (sorted_store_answered_in_order Iso.iso chronological
           (only_message "DATABASE")).
  - apply sorted_by_times. vm_compute. reflexivity.
  - rewrite get_logs_unfold. cbn [fst].
    rewrite applyFilters_passes; [done|].
    intros _. apply Forall_forallb. vm_compute. reflexivity.
Defined.

(** X11. Ingesting in the order of time keeps the collection newest first.
    When the collection is held newest first and the record created for an
    accepted request is not older than any record of it, the new collection
    is again newest first, and the query without criteria answers with it
    as it is: the new record, then the old records in their order. *)
Theorem chronological_ingest (H : host) (e : env) (logEntry : object) (s : server) :
  accepted H (e, logEntry) = true →
  StronglySorted (not_older H) (stored s) →
  let s' := (post_logs H e logEntry s).2 in
  ∃ newLog,
    (post_logs H e logEntry s).1 = Return (Status201 newLog)
    ∧ (Forall (not_older H newLog) (stored s) →
       StronglySorted (not_older H) (stored s')
       ∧ get_logs H no_filters s'
         = (Return (Status200 (newLog :: take 999 (stored s))), s')).
Proof.
  intros Hacc Hsorted s'. exists (stored_record H e logEntry).
  split; [by apply accepted_created|]. intros Hnew.
  assert (stored s' = stored_record H e logEntry :: take 999 (stored s)) as Hs'
    by (subst s'; by rewrite accepted_stored).
  assert (StronglySorted (not_older H) (stored s')) as Hsorted'.
  { rewrite Hs'. constructor.
    - eapply StronglySorted_sublist; [apply sublist_take|done].
    - eapply Forall_of_sublist; [apply sublist_take|done]. }
  split; [done|].
  destruct (sorted_store_answered_in_order H s' no_filters (stored s') Hsorted')
    as [_ Hget].
  - rewrite get_logs_unfold. cbn [fst].
    rewrite applyFilters_passes by (by intros [? ?]).
    rewrite (List.filter_ext _ (λ _, true) (passes_no_filters H)), filter_all.
    by rewrite Array_sort_sorted.
  - by rewrite Hget, Hs'.
Qed.

Lemma chronological_ingest_witness :
  let logEntry := entry_at "2024-01-01T12:00:00Z" in
  let s' := (post_logs Iso.iso sample_env logEntry chronological).2 in
  ∃ newLog,
    (post_logs Iso.iso sample_env logEntry chronological).1
    = Return (Status201 newLog)
    ∧ (Forall (not_older Iso.iso newLog) (stored chronological) →
       StronglySorted (not_older Iso.iso) (stored s')
       ∧ get_logs Iso.iso no_filters s'
         = (Return (Status200 (newLog :: take 999 (stored chronological))), s')).
Proof.
  apply (chronological_ingest Iso.iso sample_env (entry_at "2024-01-01T12:00:00Z")
           chronological).
  - vm_compute. reflexivity.
  - apply sorted_by_times. vm_compute. reflexivity.
Defined.

(** ** Startup *)

Lemma initializeDatabase_unfold b s :
  initializeDatabase b s =
  match db s with
  | db_missing => write_container (boot_writeFile b) [] s
  | db_unreadable =>
      if access_unreadable b then (Return (), s)
      else write_container (boot_writeFile b) [] s
  | _ => (Return (), s)
  end.
Proof.
  unfold initializeDatabase, try_catch, fs_access.
  destruct (db s); try done. by destruct (access_unreadable b).
Qed.

(** X12. Startup never loses a record and never repairs a file.  When the
    server comes to listen, the collection that [readLogs] gives is the one
    it gave before, the file is there, and nothing was broadcast; a file
    that could be read, holding a collection or not even JSON, is left
    exactly as it was. *)
Theorem startup_keeps_collection (b : boot) (s : server) :
  (startServer b s).1 = Listening →
  stored (startServer b s).2 = stored s
  ∧ db (startServer b s).2 ≠ db_missing
  ∧ broadcast_logs (trace (startServer b s).2) = broadcast_logs (trace s)
  ∧ (db s = db_corrupt ∨ db s = db_no_logs ∨ (∃ logs, db s = db_logs logs) →
     (startServer b s).2 = s).
Proof.
  unfold startServer. rewrite initializeDatabase_unfold.
  unfold write_container, stored, broadcast_logs.
  destruct (db s) eqn:Hdb, (access_unreadable b), (boot_writeFile b);
    cbn; intros Hl; try done; rewrite ?omap_app, ?app_nil_r, ?Hdb;
    (repeat split; try done; try by intros [|[|[? ?]]]).
Qed.

Lemma startup_keeps_collection_witness :
  let b := Boot true write_ok true in
  let s := Server db_missing [] [] in
  stored (startServer b s).2 = stored s
  ∧ db (startServer b s).2 ≠ db_missing
  ∧ broadcast_logs (trace (startServer b s).2) = broadcast_logs (trace s)
  ∧ (db s = db_corrupt ∨ db s = db_no_logs ∨ (∃ logs, db s = db_logs logs) →
     (startServer b s).2 = s).
Proof.
  apply (startup_keeps_collection (Boot true write_ok true) (Server db_missing [] [])).
  reflexivity.
Defined.

(** X13. The process ends in one of two ways: it listens, or it exits with
    code 1.  It listens exactly when the file is in place after
    [initializeDatabase] ([fs.access] resolved, or the empty container was
    written) and [server.listen] gets the port.  When the file was missing
    and the port is taken, the process exits after it has created the
    file. *)
Theorem startup_exits_iff (b : boot) (s : server) :
  ((startServer b s).1 = Listening
   ↔ (boot_writeFile b = write_ok
      ∨ ¬ (db s = db_missing ∨ (db s = db_unreadable ∧ access_unreadable b = false)))
     ∧ server_listen b = true)
  ∧ ((startServer b s).1 = Listening ∨ (startServer b s).1 = Exited 1)
  ∧ (db s = db_missing → boot_writeFile b = write_ok → server_listen b = false →
     startServer b s
     = (Exited 1, Server (db_logs []) (sockets s) (trace s ++ [Persisted []]))).
Proof.
  unfold startServer. rewrite initializeDatabase_unfold. unfold write_container.
  destruct (db s), (access_unreadable b), (boot_writeFile b), (server_listen b);
    cbn; (split; [split; [intros ?|intros [[?|Hn] ?]]|split; [|intros ? ? ?]]);
    try done; eauto; try (split; [|done]); try (by left);
    try (right; by intros [?|[? ?]]); try (exfalso; apply Hn; eauto).
Qed.

Lemma startup_exits_iff_witness :
  let b := Boot true write_ok false in
  let s := Server db_missing [] [] in
  startServer b s
  = (Exited 1, Server (db_logs []) (sockets s) (trace s ++ [Persisted []])).
Proof.
  apply (startup_exits_iff (Boot true write_ok false) (Server db_missing [] []));
    reflexivity.
Defined.

(** ** Queries over one collection *)

Lemma passes_only_level H L (log : object) :
  L ≠ ""%string →
  passes H (only_level L) log = strict_eq (log !! "level") L.
Proof.
  intros HL. unfold passes, only_level, test, test_bound. cbn [level message
    resourceId timestamp_start timestamp_end traceId spanId commit].
  assert (given (Some L) = Some L) as -> by (by apply given_Some).
  cbn [given]. by rewrite !andb_true_r.
Qed.

Lemma query_only_level H s L :
  L ≠ ""%string →
  ∃ result,
    get_logs H (only_level L) s = (Return (Status200 result), s)
    ∧ result ≡ₚ List.filter (λ log, strict_eq (log !! "level") L) (stored s).
Proof.
  intros HL.
  destruct (query_result H s (only_level L)) as (result & Hget & -> & _);
    [by intros [? ?]|].
  eexists. split; [done|]. rewrite Array_sort_perm.
  by rewrite (List.filter_ext _ _ (λ log, passes_only_level H L log HL)).
Qed.

Lemma levels_partition (l : list object) :
  Forall level_ok l →
  List.filter (λ log, strict_eq (log !! "level") "error") l
  ++ List.filter (λ log, strict_eq (log !! "level") "warn") l
  ++ List.filter (λ log, strict_eq (log !! "level") "info") l
  ++ List.filter (λ log, strict_eq (log !! "level") "debug") l
  ≡ₚ l.
Proof.
  induction 1 as [|log l (L & HL & Hin) _ IH]; [done|].
  cbn [List.filter]. rewrite HL. unfold validLevels in Hin. set_unfold.
  destruct Hin as [->|[->|[->|[->|[]]]]]; cbn [strict_eq String.eqb Ascii.eqb
    Bool.eqb andb app]; rewrite <- ?Permutation_middle; by constructor.
Qed.

(** X15. The four levels partition a collection of validated records: the
    queries by level error, warn, info and debug all succeed, and their
    answers taken together are the collection, every record in exactly one
    of them. *)
Theorem level_queries_partition (H : host) (s : server) :
  Forall level_ok (stored s) →
  ∃ errors warns infos debugs,
    get_logs H (only_level "error") s = (Return (Status200 errors), s)
    ∧ get_logs H (only_level "warn") s = (Return (Status200 warns), s)
    ∧ get_logs H (only_level "info") s = (Return (Status200 infos), s)
    ∧ get_logs H (only_level "debug") s = (Return (Status200 debugs), s)
    ∧ errors ++ warns ++ infos ++ debugs ≡ₚ stored s.
Proof.
  intros Hlevels.
  destruct (query_only_level H s "error") as (errors & He & Hpe); [done|].
  destruct (query_only_level H s "warn") as (warns & Hw & Hpw); [done|].
  destruct (query_only_level H s "info") as (infos & Hi & Hpi); [done|].
  destruct (query_only_level H s "debug") as (debugs & Hd & Hpd); [done|].
  exists errors, warns, infos, debugs. repeat split; try done.
  rewrite Hpe, Hpw, Hpi, Hpd. by apply levels_partition.
Qed.

Lemma level_queries_partition_witness :
  ∃ errors warns infos debugs,
    get_logs Iso.iso (only_level "error") three_records
    = (Return (Status200 errors), three_records)
    ∧ get_logs Iso.iso (only_level "warn") three_records
      = (Return (Status200 warns), three_records)
    ∧ get_logs Iso.iso (only_level "info") three_records
      = (Return (Status200 infos), three_records)
    ∧ get_logs Iso.iso (only_level "debug") three_records
      = (Return (Status200 debugs), three_records)
    ∧ errors ++ warns ++ infos ++ debugs ≡ₚ stored three_records.
Proof.
  apply (level_queries_partition Iso.iso three_records).
  eapply Forall_impl.
  - apply (stored_records_well_formed Iso.iso
             [(sample_env, entry_at "2024-01-01T11:00:00Z");
              (sample_env, entry_at "2024-01-01T10:00:00Z");
              (sample_env, entry_at "2024-01-01T12:00:00Z")] empty_server).
    + repeat constructor.
    + constructor.
  - by intros log (Hlevel & _).
Defined.

Lemma Permutation_List_filter {A} (f : A → bool) (l k : list A) :
  l ≡ₚ k → List.filter f l ≡ₚ List.filter f k.
Proof.
  induction 1 as [|x l k _ IH|x y l|l k m _ IH1 _ IH2]; cbn.
  - done.
  - destruct (f x); by rewrite IH.
  - destruct (f x), (f y); try done. apply Permutation_swap.
  - by rewrite IH1.
Qed.

Lemma NoDup_map_inj {A B} (g : A → B) (l : list A) (x y : A) :
  NoDup (map g l) → x ∈ l → y ∈ l → g x = g y → x = y.
Proof.
  induction l as [|z l IH]; cbn [map]; intros Hnd Hx Hy Heq.
  - by apply elem_of_nil in Hx.
  - apply NoDup_cons in Hnd as [Hz Hnd].
    apply elem_of_cons in Hx as [->|Hx], Hy as [->|Hy]; [done| | |by apply IH].
    + exfalso. apply Hz. rewrite Heq. by apply list_elem_of_fmap_2.
    + exfalso. apply Hz. rewrite <- Heq. by apply list_elem_of_fmap_2.
Qed.

(** X16. The answer does not depend on the order of the collection.  Two
    stores that hold the same records, in whatever order, give the same
    answer to every query, the same list in the same order or the same
    error, provided the timestamps of the records are points in time and
    no two of them are equal. *)
Theorem answer_independent_of_order (H : host) (s1 s2 : server) (filters : criteria) :
  stored s1 ≡ₚ stored s2 →
  Forall (λ log, is_Some (time_of H log)) (stored s1) →
  NoDup (map (time_of H) (stored s1)) →
  (get_logs H filters s1).1 = (get_logs H filters s2).1.
Proof.
  intros Hperm Htimes Hdistinct. rewrite !get_logs_unfold. cbn [fst].
  destruct (applyFilters_cases H (stored s1) filters)
    as [(Hnone1 & Hm & log & Hin & Hlog)|Hsome1],
     (applyFilters_cases H (stored s2) filters)
    as [(Hnone2 & Hm' & log' & Hin' & Hlog')|Hsome2].
  - by rewrite Hnone1, Hnone2.
  - rewrite applyFilters_throws in Hsome2; [done..|].
    exists log. by rewrite <- Hperm.
  - rewrite applyFilters_throws in Hsome1; [done..|].
    exists log'. by rewrite Hperm.
  - rewrite Hsome1, Hsome2. do 2 f_equal.
    assert (List.filter (passes H filters) (stored s1)
            ≡ₚ List.filter (passes H filters) (stored s2)) as Hfilter
      by (by apply Permutation_List_filter).
    apply (StronglySorted_unique_strong (not_older H)).
    + intros x1 x2 Hx1 Hx2 (a & b & Ha & Hb & Hab) (b' & a' & Hb' & Ha' & Hba).
      rewrite Array_sort_perm, list_elem_of_In, filter_In, <- list_elem_of_In
        in Hx1, Hx2.
      destruct Hx1 as [Hx1 _], Hx2 as [Hx2 _]. rewrite <- Hperm in Hx2.
      apply (NoDup_map_inj (time_of H) (stored s1)); try done.
      rewrite Ha in Ha'. rewrite Hb in Hb'.
      injection Ha' as <-. injection Hb' as <-.
      rewrite Ha, Hb. f_equal. lia.
    + by apply Array_sort_newest_first, Forall_List_filter.
    + apply Array_sort_newest_first, Forall_List_filter. by rewrite <- Hperm.
    + by rewrite !Array_sort_perm.
Qed.

Lemma answer_independent_of_order_witness :
  (get_logs Iso.iso (only_message "DATABASE") three_records).1
  = (get_logs Iso.iso (only_message "DATABASE") three_records_reversed).1.
Proof.
  apply (answer_independent_of_order Iso.iso three_records three_records_reversed).
  - apply Permutation_rev.
  - apply Forall_is_Some. vm_compute. reflexivity.
  - apply (bool_decide_unpack _). vm_compute. exact I.
Defined.

(** ** The answer of a query *)

(** A query answers with the internal error when it meets a message that is
    not text, and otherwise with the records that pass, sorted; it leaves
    the server as it is. *)
Lemma query_answer H s filters :
  (meets_non_text filters (stored s)
   ∧ get_logs H filters s = (Return Status500, s))
  ∨ (¬ meets_non_text filters (stored s)
     ∧ get_logs H filters s
       = (Return (Status200 (Array_sort (newest_first H)
                               (List.filter (passes H filters) (stored s)))), s)).
Proof.
  rewrite get_logs_unfold. unfold meets_non_text.
  destruct (applyFilters_cases H (stored s) filters)
    as [(-> & [v Hv] & log & Hin & Hlevel & Hlog)|Hsome].
  - left. apply given_Some in Hv. split; [|done]. split; [by exists v|].
    exists log. by repeat split.
  - right. rewrite Hsome. split; [|done].
    intros [(v & Hv & Hne) (log & Hin & Hlog & Hlevel)].
    rewrite applyFilters_throws in Hsome; [done| |].
    + exists v. by apply given_Some.
    + exists log. by repeat split.
Qed.

Lemma query_answer_200 H s filters result :
  (get_logs H filters s).1 = Return (Status200 result) →
  result = Array_sort (newest_first H) (List.filter (passes H filters) (stored s)).
Proof.
  destruct (query_answer H s filters) as [[_ ->]|[_ ->]]; cbn [fst]; congruence.
Qed.


(** C5. Over a collection whose timestamps are points in time, whatever its
    order and whatever the criteria, every answer of the query is a list in
    which each record is at least as recent as all those after it; and the
    query does answer, unless it meets a message that is not text.  In
    particular a collection that holds three records with timestamps
    T1 < T2 < T3, in any order, is answered (without criteria) as
    T3, T2, T1. *)
Theorem query_newest_first (H : host) (s : server) (filters : criteria) :
  Forall (λ log, is_Some (time_of H log)) (stored s) →
  (∀ result,
     (get_logs H filters s).1 = Return (Status200 result) →
     StronglySorted (not_older H) result)
  ∧ (¬ meets_non_text filters (stored s) →
     ∃ result, get_logs H filters s = (Return (Status200 result), s))
  ∧ (∀ r1 r2 r3 T1 T2 T3,
       stored s ≡ₚ [r1; r2; r3] →
       time_of H r1 = Some T1 → time_of H r2 = Some T2 → time_of H r3 = Some T3 →
       T1 < T2 → T2 < T3 →
       get_logs H no_filters s = (Return (Status200 [r3; r2; r1]), s)).
Proof.
  intros Htime. split; [|split].
  - intros result ->%query_answer_200.
    by apply Array_sort_newest_first, Forall_List_filter.
  - intros Hno. destruct (query_answer H s filters) as [[? _]|[_ ->]]; [done|eauto].
  - intros r1 r2 r3 T1 T2 T3 Hperm H1 H2 H3 H12 H23.
    destruct (query_answer H s no_filters) as [[[(v & Hv & _) _] _]|[_ ->]]; [done|].
    do 3 f_equal.
    rewrite (List.filter_ext _ (λ _, true) (passes_no_filters H)), filter_all.
    apply (StronglySorted_unique_strong (not_older H)).
    + intros x1 x2 Hx1 Hx2 (a & b & Ha & Hb & Hab) (b' & a' & Hb' & Ha' & Hba).
      rewrite Array_sort_perm, Hperm in Hx1. set_unfold.
      destruct_or!; simplify_eq; (done || lia).
    + by apply Array_sort_newest_first.
    + repeat constructor; eexists _, _; (repeat split; [done..|lia]).
    + rewrite Array_sort_perm, Hperm.
      change [r3; r2; r1] with (rev [r1; r2; r3]). apply Permutation_rev.
Qed.

Lemma query_newest_first_witness :
  (∀ result,
     (get_logs Iso.iso (only_message "DATABASE") three_records).1
     = Return (Status200 result) →
     StronglySorted (not_older Iso.iso) result)
  ∧ (¬ meets_non_text (only_message "DATABASE") (stored three_records) →
     ∃ result, get_logs Iso.iso (only_message "DATABASE") three_records
               = (Return (Status200 result), three_records))
  ∧ (∀ r1 r2 r3 T1 T2 T3,
       stored three_records ≡ₚ [r1; r2; r3] →
       time_of Iso.iso r1 = Some T1 → time_of Iso.iso r2 = Some T2 →
       time_of Iso.iso r3 = Some T3 →
       T1 < T2 → T2 < T3 →
       get_logs Iso.iso no_filters three_records
       = (Return (Status200 [r3; r2; r1]), three_records)).
Proof.
  apply (query_newest_first Iso.iso three_records (only_message "DATABASE")).
  apply Forall_is_Some. vm_compute. reflexivity.
Defined.





